(** * clapper: a getopt(3)-style command-line resolver

    A shallow embedding of [clapper.go] (package [clapper]) and the
    properties of its registry builder and of [Registry.Parse].

    Conventions of the embedding.
    - A Go [string] is a sequence of bytes; it is a Rocq [string] (a sequence
      of 8-bit [ascii]), and [len] is [String.length].
    - A Go [map[string]T] is a [gmap string T]; reading a missing key gives
      [None] where Go gives the zero value together with [ok = false].
    - The tables hold pointers ([*FlagCommand], [*ArgCommand], [*Arg]).
      Every such object is allocated by the package and placed in exactly
      one table under one key, so the table itself is the store: a pointer
      is the key of its entry, and a write through the pointer is an update
      of that entry.  A [nil] pointer read out of a table (a missing key)
      and then dereferenced is the outcome [NilDeref] / [Panics].
    - [map[string]bool] used as a set of valid values is a [gset string];
      Go's [nil] map and the empty map both have length 0 and are both [∅]. *)

From Stdlib Require Import String Ascii.
From stdpp Require Import base option list gmap strings fin_maps.

Local Open Scope string_scope.

(** ** The part of Go's [strings] package the program uses (bytewise) *)

Module strings.

Definition len (s : string) : nat := String.length s.

  (** [strings.HasPrefix(s, prefix)]:
      [len(s) >= len(prefix) && s[:len(prefix)] == prefix] *)
Fixpoint HasPrefix (s pre : string) {struct pre} : bool :=
  match pre with
  | EmptyString => true
  | String a pre' =>
      match s with
      | EmptyString => false
      | String b s' => Ascii.eqb a b && HasPrefix s' pre'
      end
  end.

  (** [strings.HasSuffix(s, suffix)]:
      [len(s) >= len(suffix) && s[len(s)-len(suffix):] == suffix] *)
Definition HasSuffix (s suf : string) : bool :=
    (len suf <=? len s)%nat &&
    String.eqb (String.substring (len s - len suf) (len suf) s) suf.

  (** membership of a byte in a cutset *)
Fixpoint inCutset (c : ascii) (cutset : string) : bool :=
    match cutset with
    | EmptyString => false
    | String d cutset' => Ascii.eqb c d || inCutset c cutset'
    end.

  (** [strings.TrimLeft(s, cutset)]: drops every leading byte that is in
      [cutset] (a set of bytes, not a prefix). *)
Fixpoint TrimLeft (s cutset : string) : string :=
    match s with
    | EmptyString => EmptyString
    | String c s' => if inCutset c cutset then TrimLeft s' cutset else s
    end.

  (** [strings.TrimRight(s, cutset)]: drops every trailing byte that is in
      [cutset]. *)
Fixpoint TrimRight (s cutset : string) : string :=
    match s with
    | EmptyString => EmptyString
    | String c s' =>
        match TrimRight s' cutset with
        | EmptyString => if inCutset c cutset then EmptyString else String c EmptyString
        | t => String c t
        end
    end.

  (** [strings.Trim(s, cutset)] *)
Definition Trim (s cutset : string) : string :=
    TrimRight (TrimLeft s cutset) cutset.

  (** [strings.Split(s, sep)] for a one-byte separator (the program only
      splits on ["="]). *)
Fixpoint Split (s : string) (sep : ascii) : list string :=
    match s with
    | EmptyString => [EmptyString]
    | String c s' =>
        if Ascii.eqb c sep then EmptyString :: Split s' sep
        else match Split s' sep with
             | p :: ps => String c p :: ps
             | [] => [String c EmptyString]
             end
    end.

  (** [strings.ReplaceAll(s, old, new)] for a one-byte [old] (the program
      only replaces [" "]). *)
Fixpoint ReplaceAll (s : string) (old : ascii) (new : string) : string :=
    match s with
    | EmptyString => EmptyString
    | String c s' =>
        if Ascii.eqb c old then new +:+ ReplaceAll s' old new
        else String c (ReplaceAll s' old new)
    end.

End strings.

(** ** Private functions *)

(** check if value is a flag *)
Definition isFlag (value : string) : bool :=
  (2 <=? strings.len value)%nat && strings.HasPrefix value "-".

(** check if value is a short flag *)
Definition isShortFlag (value : string) : bool :=
  isFlag value && (strings.len value =? 2)%nat && negb (strings.HasPrefix value "--").

(** check if value starts with [--no-] prefix *)
Definition isInvertedFlag (value : string) : bool * string :=
  if isFlag value && strings.HasPrefix value "--no-"
  then (true, strings.TrimLeft value "--no-")
  else (false, strings.TrimLeft value "--").

(** check if flag is unsupported *)
Definition isUnsupportedFlag (value : string) : bool :=
  if (2 <=? strings.len value)%nat then
    if (strings.len value =? 2)%nat
    then negb (strings.HasPrefix value "-") || strings.HasPrefix value "--"
    else negb (strings.HasPrefix value "--") || strings.HasPrefix value "---"
  else false.

(** check if value ends with [...] suffix *)
Definition isVariadicArgument (value : string) : bool * string :=
  if negb (isFlag value) && strings.HasSuffix value "..."
  then (true, strings.TrimRight value "...")
  else (false, "").

(** format command-line argument values: a flag-shaped value is split by
    [=] and its blank parts are dropped *)
Definition formatValue (value : string) : list string :=
  if isFlag value
  then List.filter (fun part => negb (String.eqb (strings.Trim part " ") ""))
                   (strings.Split value "=")
  else [value].

Definition formatCommandValues (values : list string) : list string :=
  List.flat_map formatValue values.

(** return next value and remaining values of a slice of strings *)
Definition nextValue (slice : list string) : string * list string :=
  match slice with
  | [] => ("", [])
  | v :: newSlice => (v, newSlice)
  end.

(** trim whitespaces from a value (the cutset in the source is empty) *)
Definition trimWhitespaces (value : string) : string := strings.Trim value "".

(** remove whitespaces from a value *)
Definition removeWhitespaces (value : string) : string :=
  strings.ReplaceAll value " " "".

(** ** Errors *)

Inductive Error : Type :=
  | ErrorUnknownCommand (Name : string)
  | ErrorUnknownFlag (Name : string)
  | ErrorUnsupportedFlag (Name : string)
  | ErrorUnsupportedValue (Name : string) (Value : string).

(** ** Schema and result types *)

(** [SetValidVals]: an empty list resets the set ([nil]), otherwise the set
    holds exactly the listed values. *)
Definition validSet (validVals : list string) : gset string :=
  if (length validVals =? 0)%nat then ∅ else list_to_set validVals.

(** [Validate]: a set of length 0 accepts every value. *)
Definition validIn (ValidVals : gset string) (v : string) : bool :=
  if (0 <? size ValidVals)%nat then bool_decide (v ∈ ValidVals) else true.

(** Flag type holds the structured information about a (parsed) flag. *)
Module Flag.
Record t : Type := mk { Name : string; IsBoolean : bool; Value : string }.
End Flag.

(** Arg type holds the structured information about a (parsed) argument. *)
Module Arg.
Record t : Type := mk { Name : string; IsVariadic : bool; Value : string }.
Definition setValue (a : t) (v : string) : t := mk (Name a) (IsVariadic a) v.
End Arg.

(** FlagCommand type holds the structured information about a flag. *)
Module FlagCommand.
Record t : Type := mk {
    Name : string;
    ShortName : string;
    IsBoolean : bool;
    IsInverted : bool;
    DefaultValue : string;
    Value : string;
    ValidVals : gset string
  }.

Definition SetValidVals (f : t) (validVals : list string) : t :=
    mk (Name f) (ShortName f) (IsBoolean f) (IsInverted f) (DefaultValue f)
       (Value f) (validSet validVals).

Definition Validate (f : t) (v : string) : bool := validIn (ValidVals f) v.

Definition Store (f : t) (v : string) : Flag.t :=
    Flag.mk (Name f) (IsBoolean f) v.

Definition StoreDefault (f : t) : Flag.t :=
    Flag.mk (Name f) (IsBoolean f) (DefaultValue f).
End FlagCommand.

(** ArgCommand type holds the structured information about an argument. *)
Module ArgCommand.
Record t : Type := mk {
    Name : string;
    IsVariadic : bool;
    DefaultValue : string;
    Value : string;
    ValidVals : gset string
  }.

Definition SetValidVals (a : t) (validVals : list string) : t :=
    mk (Name a) (IsVariadic a) (DefaultValue a) (Value a) (validSet validVals).

Definition Validate (a : t) (v : string) : bool := validIn (ValidVals a) v.

Definition Store (a : t) (v : string) : Arg.t :=
    Arg.mk (Name a) (IsVariadic a) v.

Definition StoreDefault (a : t) : Arg.t :=
    Arg.mk (Name a) (IsVariadic a) (DefaultValue a).
End ArgCommand.

(** CommandConfig type holds the structure of the command-line arguments of
    a command. *)
Module CommandConfig.
Record t : Type := mk {
    Name : string;
    Flags : gmap string FlagCommand.t;
    flagsShort : gmap string string;
    Args : gmap string ArgCommand.t;
    ArgNames : list string
  }.

Definition setFlags (c : t) (fl : gmap string FlagCommand.t) : t :=
    mk (Name c) fl (flagsShort c) (Args c) (ArgNames c).
Definition setFlagsShort (c : t) (sh : gmap string string) : t :=
    mk (Name c) (Flags c) sh (Args c) (ArgNames c).
Definition setArgs (c : t) (ar : gmap string ArgCommand.t) : t :=
    mk (Name c) (Flags c) (flagsShort c) ar (ArgNames c).
Definition setArgNames (c : t) (ns : list string) : t :=
    mk (Name c) (Flags c) (flagsShort c) (Args c) ns.
End CommandConfig.

(** CommandParsed type holds the values of the command-line arguments of a
    command (final parsed version). *)
Module CommandParsed.
Record t : Type := mk {
    Name : string;
    Flags : gmap string Flag.t;
    Args : gmap string Arg.t
  }.

Definition setFlags (s : t) (fl : gmap string Flag.t) : t :=
    mk (Name s) fl (Args s).
Definition setArgs (s : t) (ar : gmap string Arg.t) : t :=
    mk (Name s) (Flags s) ar.
End CommandParsed.

(** Registry holds the configuration of the registered commands. *)
Abbreviation Registry := (gmap string CommandConfig.t).

(** ** Registry builder *)

(** NewRegistry returns new instance of the Registry *)
Definition NewRegistry : Registry := ∅.

(** [Register]: the command configuration is returned by reference, that is
    as the key of its registry entry. *)
Definition Register (registry : Registry) (name : string)
  : Registry * string * bool :=
  let commandName := removeWhitespaces name in
  match registry !! commandName with
  | Some _ => (registry, commandName, true)
  | None =>
      let commandConfig := CommandConfig.mk commandName ∅ ∅ ∅ [] in
      (<[commandName := commandConfig]> registry, commandName, false)
  end.

(** [AddArg]: returns the updated command configuration, the reference to
    the argument definition (the key of its entry in [Args]) and whether the
    argument was already registered. *)
Definition AddArg (commandConfig : CommandConfig.t) (name defaultValue : string)
  : CommandConfig.t * string * bool :=
  let _name := removeWhitespaces name in
  let _defaultValue := trimWhitespaces defaultValue in
  let '(_name, _isVariadic) :=
    match isVariadicArgument _name with
    | (true, argName) => (argName, true)
    | (false, _) => (_name, false)
    end in
  match CommandConfig.Args commandConfig !! _name with
  | Some _ => (commandConfig, _name, true)
  | None =>
      let arg := ArgCommand.mk _name _isVariadic _defaultValue "" ∅ in
      let c1 := CommandConfig.setArgs commandConfig
                  (<[_name := arg]> (CommandConfig.Args commandConfig)) in
      let c2 := CommandConfig.setArgNames c1
                  (CommandConfig.ArgNames c1 ++ [_name])%list in
      (c2, _name, false)
  end.

(** [AddArgWithValid]: [a.SetValidVals(validVals)] writes through the
    pointer [AddArg] returned. *)
Definition AddArgWithValid (commandConfig : CommandConfig.t)
    (name defaultValue : string) (validVals : list string)
  : CommandConfig.t * string * bool :=
  let '(c, a, existed) := AddArg commandConfig name defaultValue in
  (CommandConfig.setArgs c
     (alter (fun d => ArgCommand.SetValidVals d validVals) a (CommandConfig.Args c)),
   a, existed).

(** [AddFlag]: returns the updated command configuration, the reference to
    the flag definition (the key of its entry in [Flags]) and whether the
    flag was already registered. *)
Definition AddFlag (commandConfig : CommandConfig.t)
    (name shortName : string) (isBool : bool) (defaultValue : string)
  : CommandConfig.t * string * bool :=
  let _name := removeWhitespaces name in
  let _shortName := removeWhitespaces shortName in
  let _defaultValue := trimWhitespaces defaultValue in
  let _shortName :=
    if negb (String.eqb _shortName "") then String.substring 0 1 _shortName
    else _shortName in
  let '(_isInvert, _name, _defaultValue, _shortName) :=
    if isBool then
      if strings.HasPrefix name "no-"
      then (true, strings.TrimLeft name "no-", "true", "")
      else (false, _name, "false", _shortName)
    else (false, _name, _defaultValue, _shortName) in
  match CommandConfig.Flags commandConfig !! _name with
  | Some _ => (commandConfig, _name, true)
  | None =>
      let flag := FlagCommand.mk _name _shortName isBool _isInvert _defaultValue "" ∅ in
      let c1 := CommandConfig.setFlags commandConfig
                  (<[_name := flag]> (CommandConfig.Flags commandConfig)) in
      let c2 := if (0 <? strings.len _shortName)%nat
                then CommandConfig.setFlagsShort c1
                       (<[_shortName := _name]> (CommandConfig.flagsShort c1))
                else c1 in
      (c2, _name, false)
  end.

(** [AddFlagWithValid]: [f.SetValidVals(validVals)] writes through the
    pointer [AddFlag] returned. *)
Definition AddFlagWithValid (commandConfig : CommandConfig.t)
    (name shortName : string) (isBool : bool) (defaultValue : string)
    (validVals : list string)
  : CommandConfig.t * string * bool :=
  let '(c, f, existed) := AddFlag commandConfig name shortName isBool defaultValue in
  (CommandConfig.setFlags c
     (alter (fun d => FlagCommand.SetValidVals d validVals) f (CommandConfig.Flags c)),
   f, existed).

(** ** The resolver *)

(** What one step of [Parse]'s body does: go on with a value, leave with
    [return nil, err], or dereference a [nil] pointer. *)
Inductive step (A : Type) : Type :=
  | Continue (a : A)
  | Abort (e : Error)
  | NilDeref.
Arguments Continue {A} a.
Arguments Abort {A} e.
Arguments NilDeref {A}.

Definition bind {A B : Type} (m : step A) (k : A → step B) : step B :=
  match m with
  | Continue a => k a
  | Abort e => Abort e
  | NilDeref => NilDeref
  end.

Notation "'let*' x ':=' m 'in' k" := (bind m (fun x => k))
  (at level 10, x name, m at level 100, k at level 200).

(** What [Parse] gives back: the pair of a [*CommandParsed] and an [error], or a
    run-time panic. *)
Inductive outcome : Type :=
  | Returns (store : option CommandParsed.t) (err : option Error)
  | Panics.

(** check if values corresponds to the root command *)
Definition isRootCommand (values : list string) (registry : Registry) : bool :=
  match registry !! "" with
  | None => false
  | Some rootCommandConfig =>
      match values with
      | [] => true
      | v0 :: _ =>
          if isFlag v0 then true
          else (0 <? size (CommandConfig.Args rootCommandConfig))%nat
               && negb (bool_decide (is_Some (registry !! v0)))
      end
  end.

(** The command name [Parse] selects and the values left to process. *)
Definition selectCommand (registry : Registry) (values : list string)
  : string * list string :=
  if isRootCommand values registry then ("", values) else nextValue values.

(** check for invalid flag structure: the first flag-shaped value that is
    unsupported, if any *)
Definition firstUnsupported (valuesToProcess : list string) : option string :=
  List.find (fun val => isFlag val && isUnsupportedFlag val) valuesToProcess.

(** The flag definition a flag-shaped [value] denotes. *)
Definition lookupFlag (commandConfig : CommandConfig.t) (value : string)
  : step FlagCommand.t :=
  let name := strings.TrimLeft value "-" in
  if isShortFlag value then
    match CommandConfig.flagsShort commandConfig !! name with
    | None => Abort (ErrorUnknownFlag value)
    | Some flagName =>
        match CommandConfig.Flags commandConfig !! flagName with
        | None => NilDeref
        | Some flag => Continue flag
        end
    end
  else
    match isInvertedFlag value with
    | (true, flagName) =>
        match CommandConfig.Flags commandConfig !! flagName with
        | None => Abort (ErrorUnknownFlag value)
        | Some flag => Continue flag
        end
    | (false, flagName) =>
        match CommandConfig.Flags commandConfig !! flagName with
        | None => Abort (ErrorUnknownFlag value)
        | Some flag =>
            if FlagCommand.IsInverted flag then Abort (ErrorUnknownFlag value)
            else Continue flag
        end
    end.

(** [store.Flags[flag.Name] = flag.Store(v)] *)
Definition storeFlag (store : CommandParsed.t) (flag : FlagCommand.t) (v : string)
  : CommandParsed.t :=
  CommandParsed.setFlags store
    (<[FlagCommand.Name flag := FlagCommand.Store flag v]> (CommandParsed.Flags store)).

(** process as argument: the loop over [commandConfig.ArgNames], entered at
    position [index] with [names] still to visit. The [*Arg] the loop works
    on is the entry of [store.Args] under [varg.Name] (found there, or made
    and put there), so the two assignments to [arg.Value] update that
    entry. *)
Fixpoint assignArg (commandConfig : CommandConfig.t) (names : list string)
    (index : nat) (value : string) (store : CommandParsed.t)
  : step CommandParsed.t :=
  match names with
  | [] => Continue store
  | argName :: names' =>
      match CommandConfig.Args commandConfig !! argName with
      | None => NilDeref
      | Some varg =>
          if negb (ArgCommand.Validate varg value)
          then Abort (ErrorUnsupportedValue (ArgCommand.Name varg) value)
          else
            let '(arg, store) :=
              match CommandParsed.Args store !! ArgCommand.Name varg with
              | Some arg => (arg, store)
              | None =>
                  let arg := Arg.mk (ArgCommand.Name varg) (ArgCommand.IsVariadic varg) "" in
                  (arg, CommandParsed.setArgs store
                          (<[Arg.Name arg := arg]> (CommandParsed.Args store)))
              end in
            if (strings.len (Arg.Value arg) =? 0)%nat then
              Continue (CommandParsed.setArgs store
                          (<[ArgCommand.Name varg := Arg.setValue arg value]>
                             (CommandParsed.Args store)))
            else
              let store :=
                if (index =? length (CommandConfig.ArgNames commandConfig) - 1)%nat
                   && Arg.IsVariadic arg
                then CommandParsed.setArgs store
                       (<[ArgCommand.Name varg
                          := Arg.setValue arg (Arg.Value arg +:+ "," +:+ value)]>
                          (CommandParsed.Args store))
                else store in
              assignArg commandConfig names' (S index) value store
      end
  end.

(** process all command-line arguments (except command name) *)
Fixpoint resolve (commandConfig : CommandConfig.t)
    (valuesToProcess : list string) (store : CommandParsed.t)
  : step CommandParsed.t :=
  match valuesToProcess with
  | [] => Continue store
  | value :: valuesToProcess =>
      if (strings.len value =? 0)%nat then Continue store
      else if isFlag value then
        let* flag := lookupFlag commandConfig value in
        if FlagCommand.IsBoolean flag then
          if FlagCommand.IsInverted flag
          then resolve commandConfig valuesToProcess (storeFlag store flag "false")
          else resolve commandConfig valuesToProcess (storeFlag store flag "true")
        else
          match valuesToProcess with
          | nextValue :: nextValuesToProcess =>
              if negb (strings.len nextValue =? 0)%nat && negb (isFlag nextValue) then
                if negb (FlagCommand.Validate flag nextValue)
                then Abort (ErrorUnsupportedValue (FlagCommand.Name flag) nextValue)
                else resolve commandConfig nextValuesToProcess
                       (storeFlag store flag nextValue)
              else resolve commandConfig valuesToProcess store
          | [] => resolve commandConfig valuesToProcess store
          end
      else
        let* store := assignArg commandConfig (CommandConfig.ArgNames commandConfig) 0 value store in
        resolve commandConfig valuesToProcess store
  end.

(** The defaulting pass over [commandConfig.Flags]. *)
Definition defaultFlags (flags : gmap string FlagCommand.t)
    (stored : gmap string Flag.t) : gmap string Flag.t :=
  map_fold (fun k flag acc =>
              match acc !! k with
              | Some _ => acc
              | None => <[k := FlagCommand.StoreDefault flag]> acc
              end) stored flags.

(** The defaulting pass over [commandConfig.Args]. *)
Definition defaultArgs (args : gmap string ArgCommand.t)
    (stored : gmap string Arg.t) : gmap string Arg.t :=
  map_fold (fun k arg acc =>
              match acc !! k with
              | Some _ => acc
              | None => <[k := ArgCommand.StoreDefault arg]> acc
              end) stored args.

(** The two loops that close [Parse]. *)
Definition storeDefaults (commandConfig : CommandConfig.t) (store : CommandParsed.t)
  : CommandParsed.t :=
  CommandParsed.mk (CommandParsed.Name store)
    (defaultFlags (CommandConfig.Flags commandConfig) (CommandParsed.Flags store))
    (defaultArgs (CommandConfig.Args commandConfig) (CommandParsed.Args store)).

(** Parse method parses command-line arguments and returns an appropriate
    [*CommandParsed] object registered in the registry. *)
Definition Parse (registry : Registry) (values : list string) : outcome :=
  let '(commandName, valuesToProcess) := selectCommand registry values in
  let valuesToProcess := formatCommandValues valuesToProcess in
  match firstUnsupported valuesToProcess with
  | Some val => Returns None (Some (ErrorUnsupportedFlag val))
  | None =>
      match registry !! commandName with
      | None => Returns None (Some (ErrorUnknownCommand commandName))
      | Some commandConfig =>
          let store := CommandParsed.mk (CommandConfig.Name commandConfig) ∅ ∅ in
          match resolve commandConfig valuesToProcess store with
          | Continue store => Returns (Some (storeDefaults commandConfig store)) None
          | Abort e => Returns None (Some e)
          | NilDeref => Panics
          end
      end
  end.

(** ** Sample registries *)

(** A write through the [*CommandConfig] that [Register] returned: the
    registry entry under [name] is replaced by the updated configuration. *)
Definition withCommand (name : string)
    (op : CommandConfig.t → CommandConfig.t * string * bool)
    (registry : Registry) : Registry :=
  alter (fun c => (op c).1.1) name registry.

(** The schema of Scenario A: the command [info] with the arguments
    category (default manager, valid values manager and student), username
    and the variadic subjects, and the flags verbose, version, output and
    the inverted no-clean. *)
Definition scenarioA : Registry :=
  let '(registry, infoCommand, _) := Register NewRegistry "info" in
  let registry := withCommand infoCommand
    (fun c => AddArgWithValid c "category" "manager" ["manager"; "student"]) registry in
  let registry := withCommand infoCommand (fun c => AddArg c "username" "") registry in
  let registry := withCommand infoCommand (fun c => AddArg c "subjects..." "") registry in
  let registry := withCommand infoCommand (fun c => AddFlag c "verbose" "v" true "") registry in
  let registry := withCommand infoCommand (fun c => AddFlag c "version" "V" false "1.0.1") registry in
  let registry := withCommand infoCommand (fun c => AddFlag c "output" "o" false "./") registry in
  withCommand infoCommand (fun c => AddFlag c "no-clean" "" true "") registry.

(** The values of Scenario A. *)
Definition tokensA : list string :=
  ["info"; "student"; "-V"; "-v"; "--output"; "./opt/dir"; "--no-clean"].

(** ** The vocabulary of the properties *)

(** The store of a successful [Parse]; the empty store stands in for a
    failure. *)
Definition storeOf (o : outcome) : CommandParsed.t :=
  match o with
  | Returns (Some store) _ => store
  | _ => CommandParsed.mk "" ∅ ∅
  end.

(** The command [info] of Scenario A. *)
Definition infoCommand : CommandConfig.t :=
  default (CommandConfig.mk "" ∅ ∅ ∅ []) (scenarioA !! "info").

(** The key [AddArg] files an argument under. *)
Definition argKey (name : string) : string :=
  match isVariadicArgument (removeWhitespaces name) with
  | (true, argName) => argName
  | (false, _) => removeWhitespaces name
  end.

(** The key [AddFlag] files a flag under. *)
Definition flagKey (name : string) (isBool : bool) : string :=
  if isBool && strings.HasPrefix name "no-" then strings.TrimLeft name "no-"
  else removeWhitespaces name.

(** [s] holds the byte [c]. *)
Definition hasByte (s : string) (c : ascii) : bool := strings.inCutset c s.

(** A malformed flag-shaped value: three or more leading dashes, or two
    characters that do not start with exactly one dash. *)
Definition malformedFlag (t : string) : bool :=
  isFlag t &&
  (strings.HasPrefix t "---"
   || ((strings.len t =? 2)%nat
       && negb (strings.HasPrefix t "-" && negb (strings.HasPrefix t "--")))).

(** The test of [Parse]'s scan for invalid flag structure. *)
Definition unsupportedShape (val : string) : bool :=
  isFlag val && isUnsupportedFlag val.

(** A registry in which only the root command is registered. *)
Definition rootOnly : Registry := (Register NewRegistry "").1.1.

(** A command with a flag and an argument whose defaults lie outside their
    valid-value sets. *)
Definition levels : Registry :=
  let '(registry, run, _) := Register NewRegistry "run" in
  let registry := withCommand run
    (fun c => AddFlagWithValid c "level" "l" false "medium" ["low"; "high"]) registry in
  withCommand run
    (fun c => AddArgWithValid c "target" "nowhere" ["here"; "there"]) registry.

(** The command [run] of [levels]. *)
Definition runCommand : CommandConfig.t :=
  default (CommandConfig.mk "" ∅ ∅ ∅ []) (levels !! "run").

(** A command with a plain (non-boolean) flag whose name begins with
    [no-]. *)
Definition proxied : Registry :=
  let '(registry, run, _) := Register NewRegistry "run" in
  withCommand run (fun c => AddFlag c "no-proxy" "n" false "") registry.

(** ** Well-formed registries *)

(** The two tables of names point into the tables of definitions: every
    name of [ArgNames] has its definition in [Args], every long name of
    [flagsShort] has its definition in [Flags]. *)
Definition wfConfig (c : CommandConfig.t) : Prop :=
  Forall (fun n => is_Some (CommandConfig.Args c !! n)) (CommandConfig.ArgNames c)
  ∧ map_Forall (fun _ l => is_Some (CommandConfig.Flags c !! l)) (CommandConfig.flagsShort c).

(** Every command of the registry is well formed. *)
Definition wfRegistry (registry : Registry) : Prop :=
  map_Forall (fun _ c => wfConfig c) registry.

#[global] Instance wfConfig_dec c : Decision (wfConfig c).
Proof. unfold wfConfig. apply _. Defined.

#[global] Instance wfRegistry_dec registry : Decision (wfRegistry registry).
Proof. unfold wfRegistry. apply _. Defined.

(** ** Invariants of a command built through the builder *)

(** The list of argument names and the table of arguments describe the same
    arguments: no name is listed twice, the listed names are the keys of the
    table, and every definition sits under its own name. *)
Definition argsConsistent (c : CommandConfig.t) : Prop :=
  NoDup (CommandConfig.ArgNames c)
  ∧ dom (CommandConfig.Args c) = list_to_set (CommandConfig.ArgNames c)
  ∧ map_Forall (fun k d => ArgCommand.Name d = k) (CommandConfig.Args c).

(** Every flag definition sits under its own name; every short alias is one
    byte long and leads to a registered flag that is not inverted. *)
Definition flagsConsistent (c : CommandConfig.t) : Prop :=
  map_Forall (fun k d => FlagCommand.Name d = k) (CommandConfig.Flags c)
  ∧ map_Forall (fun s l =>
                  strings.len s = 1
                  ∧ (FlagCommand.IsInverted <$> CommandConfig.Flags c !! l) = Some false)
               (CommandConfig.flagsShort c).

#[global] Instance argsConsistent_dec c : Decision (argsConsistent c).
Proof. unfold argsConsistent. apply _. Defined.

#[global] Instance flagsConsistent_dec c : Decision (flagsConsistent c).
Proof. unfold flagsConsistent. apply _. Defined.

(** The definition [AddFlag] makes for a flag that is not registered yet:
    an inverted flag (boolean, name beginning with [no-]) has the default
    true and no short name; another boolean flag has the default false; the
    short name is cut to its first byte. *)
Definition newFlag (name shortName : string) (isBool : bool) (defaultValue : string)
  : FlagCommand.t :=
  let inverted := isBool && strings.HasPrefix name "no-" in
  FlagCommand.mk (flagKey name isBool)
    (if inverted then "" else String.substring 0 1 (removeWhitespaces shortName))
    isBool inverted
    (if isBool then (if inverted then "true" else "false") else defaultValue)
    "" ∅.

(** The command with one more flag: the definition under its name, and its
    short name, when it has one, in the alias table. *)
Definition withFlag (c : CommandConfig.t) (d : FlagCommand.t) : CommandConfig.t :=
  CommandConfig.mk (CommandConfig.Name c)
    (<[FlagCommand.Name d := d]> (CommandConfig.Flags c))
    (if (0 <? strings.len (FlagCommand.ShortName d))%nat
     then <[FlagCommand.ShortName d := FlagCommand.Name d]> (CommandConfig.flagsShort c)
     else CommandConfig.flagsShort c)
    (CommandConfig.Args c) (CommandConfig.ArgNames c).

(** The registries the builder makes: the new registry, and what [Register]
    and, through a registered command, [AddArg], [AddArgWithValid],
    [AddFlag] and [AddFlagWithValid] make of such a registry. *)
Inductive built : Registry → Prop :=
  | built_NewRegistry : built NewRegistry
  | built_Register registry name :
      built registry → built (Register registry name).1.1
  | built_AddArg registry k name defaultValue :
      built registry →
      built (withCommand k (fun c => AddArg c name defaultValue) registry)
  | built_AddArgWithValid registry k name defaultValue validVals :
      built registry →
      built (withCommand k (fun c => AddArgWithValid c name defaultValue validVals)
               registry)
  | built_AddFlag registry k name shortName isBool defaultValue :
      built registry →
      built (withCommand k (fun c => AddFlag c name shortName isBool defaultValue)
               registry)
  | built_AddFlagWithValid registry k name shortName isBool defaultValue validVals :
      built registry →
      built (withCommand k
               (fun c => AddFlagWithValid c name shortName isBool defaultValue validVals)
               registry).

(** What every command of a built registry satisfies: it is filed under its
    own name and its tables are consistent. *)
Definition commandSound (k : string) (c : CommandConfig.t) : Prop :=
  CommandConfig.Name c = k ∧ argsConsistent c ∧ flagsConsistent c.

(** A value the resolver takes as positional: not empty, not flag-shaped. *)
Definition positional (t : string) : bool :=
  negb (strings.len t =? 0)%nat && negb (isFlag t).

(** Every declared argument of the command accepts the value. *)
Definition accepts (c : CommandConfig.t) (t : string) : Prop :=
  map_Forall (fun _ d => ArgCommand.Validate d t = true) (CommandConfig.Args c).

#[global] Instance accepts_dec c t : Decision (accepts c t).
Proof. unfold accepts. apply _. Defined.

(** The stored arguments hold the values [slots], slot by slot: the i-th
    listed argument holds the i-th value, with the name and the kind of its
    declaration, and the arguments beyond the values are not set. *)
Definition slotsHold (c : CommandConfig.t) (slots : list string)
    (args : gmap string Arg.t) : Prop :=
  ∀ i n, CommandConfig.ArgNames c !! i = Some n →
    args !! n
    = match slots !! i with
      | Some t => (fun d => Arg.mk n (ArgCommand.IsVariadic d) t)
                    <$> CommandConfig.Args c !! n
      | None => None
      end.

(** What stands behind an entry the pass over the values stores for a flag:
    the flag is declared under the entry's key and the entry carries its
    name and kind; a boolean flag holds true, or false when it is inverted;
    another flag holds a positional value of the stream that its valid-value
    set accepts. *)
Definition flagEntrySound (c : CommandConfig.t) (tok : string → Prop)
    (k : string) (fl : Flag.t) : Prop :=
  ∃ d, CommandConfig.Flags c !! k = Some d
       ∧ Flag.Name fl = k ∧ Flag.IsBoolean fl = FlagCommand.IsBoolean d
       ∧ if FlagCommand.IsBoolean d
         then Flag.Value fl = (if FlagCommand.IsInverted d then "false" else "true")
         else tok (Flag.Value fl) ∧ positional (Flag.Value fl) = true
              ∧ FlagCommand.Validate d (Flag.Value fl) = true.

(** What stands behind an entry the pass stores for an argument: the
    argument is declared under the entry's key and the entry carries its
    name and kind; its value is not empty, and for an argument that is not
    variadic it is a positional value of the stream that the valid-value set
    accepts. *)
Definition argEntrySound (c : CommandConfig.t) (tok : string → Prop)
    (k : string) (a : Arg.t) : Prop :=
  ∃ d, CommandConfig.Args c !! k = Some d
       ∧ Arg.Name a = k ∧ Arg.IsVariadic a = ArgCommand.IsVariadic d
       ∧ Arg.Value a ≠ ""
       ∧ (ArgCommand.IsVariadic d = false →
          tok (Arg.Value a) ∧ positional (Arg.Value a) = true
          ∧ ArgCommand.Validate d (Arg.Value a) = true).

(** What stands behind an error of the pass over the values: an unknown
    flag is a flag-shaped value of the stream that the command's tables do
    not resolve; an unsupported value is a positional value of the stream
    that a non-boolean flag of the command, or one of its listed arguments,
    does not accept and whose name the error carries. The pass gives no
    other error. *)
Definition abortJustified (c : CommandConfig.t) (stream : list string) (e : Error)
  : Prop :=
  match e with
  | ErrorUnknownFlag t =>
      In t stream ∧ isFlag t = true ∧ lookupFlag c t = Abort (ErrorUnknownFlag t)
  | ErrorUnsupportedValue name v =>
      In v stream ∧ positional v = true
      ∧ ((∃ k d, CommandConfig.Flags c !! k = Some d
                 ∧ FlagCommand.Name d = name ∧ FlagCommand.IsBoolean d = false
                 ∧ FlagCommand.Validate d v = false)
         ∨ (∃ k d, In k (CommandConfig.ArgNames c)
                   ∧ CommandConfig.Args c !! k = Some d
                   ∧ ArgCommand.Name d = name ∧ ArgCommand.Validate d v = false))
  | _ => False
  end.

(** * Properties *)

(** ** The embedding follows the source *)

(** The resolver's loop, written with [nextValue] as the source has it:
    one value is taken, an empty value leaves the loop, a non-boolean flag
    looks one value ahead. *)
Lemma resolve_nextValue commandConfig valuesToProcess store :
  resolve commandConfig valuesToProcess store =
  let '(value, valuesToProcess) := nextValue valuesToProcess in
  if (strings.len value =? 0)%nat then Continue store
  else if isFlag value then
    let* flag := lookupFlag commandConfig value in
    if FlagCommand.IsBoolean flag then
      if FlagCommand.IsInverted flag
      then resolve commandConfig valuesToProcess (storeFlag store flag "false")
      else resolve commandConfig valuesToProcess (storeFlag store flag "true")
    else
      let '(next, nextValuesToProcess) := nextValue valuesToProcess in
      if negb (strings.len next =? 0)%nat && negb (isFlag next) then
        if negb (FlagCommand.Validate flag next)
        then Abort (ErrorUnsupportedValue (FlagCommand.Name flag) next)
        else resolve commandConfig nextValuesToProcess (storeFlag store flag next)
      else resolve commandConfig valuesToProcess store
  else
    let* store := assignArg commandConfig (CommandConfig.ArgNames commandConfig) 0 value store in
    resolve commandConfig valuesToProcess store.
Proof.
  destruct valuesToProcess as [|value rest]; [reflexivity|]. simpl.
  destruct (strings.len value =? 0)%nat; [reflexivity|].
  destruct (isFlag value); [|reflexivity].
  destruct (lookupFlag commandConfig value) as [flag| |]; simpl; try reflexivity.
  destruct (FlagCommand.IsBoolean flag); [reflexivity|].
  destruct rest as [|next rest']; reflexivity.
Qed.

(** Induction over the values as the loop consumes them: one value, or a
    flag and the value it takes. *)
Lemma tokens_ind (P : list string → Prop) :
  P [] →
  (∀ v rest, P rest → (∀ n rest', rest = n :: rest' → P rest') → P (v :: rest)) →
  ∀ l, P l.
Proof.
  intros Hnil Hcons l.
  enough (P l ∧ ∀ n rest', l = n :: rest' → P rest') as [? _] by done.
  induction l as [|v l [IH1 IH2]].
  - split; [done|]. intros ? ? [=].
  - split; [by apply Hcons|]. by intros ? ? [= _ <-].
Qed.

(** The loop [for k := range flags] of the defaulting pass, entry by entry:
    an entry already stored is kept, a declared flag not stored gets its
    default, whatever order the map is visited in. *)
Lemma defaultFlags_lookup flags (stored : gmap string Flag.t) k :
  defaultFlags flags stored !! k =
  match stored !! k with
  | Some v => Some v
  | None => FlagCommand.StoreDefault <$> flags !! k
  end.
Proof.
  unfold defaultFlags.
  apply (map_fold_weak_ind (fun (acc : gmap string Flag.t) (m : gmap string FlagCommand.t) =>
    acc !! k = match stored !! k with
               | Some v => Some v
               | None => FlagCommand.StoreDefault <$> m !! k
               end)).
  - rewrite lookup_empty. by destruct (stored !! k).
  - intros i x m acc Hi IH.
    destruct (decide (i = k)) as [->|Hne].
    + rewrite lookup_insert_eq. rewrite Hi in IH.
      destruct (acc !! k) as [v|] eqn:Hacc.
      * rewrite Hacc, IH. destruct (stored !! k); [done|]. simpl in IH. done.
      * rewrite lookup_insert_eq. by destruct (stored !! k).
    + rewrite lookup_insert_ne by done.
      destruct (acc !! i); [done|]. by rewrite lookup_insert_ne.
Qed.

Lemma defaultArgs_lookup args (stored : gmap string Arg.t) k :
  defaultArgs args stored !! k =
  match stored !! k with
  | Some v => Some v
  | None => ArgCommand.StoreDefault <$> args !! k
  end.
Proof.
  unfold defaultArgs.
  apply (map_fold_weak_ind (fun (acc : gmap string Arg.t) (m : gmap string ArgCommand.t) =>
    acc !! k = match stored !! k with
               | Some v => Some v
               | None => ArgCommand.StoreDefault <$> m !! k
               end)).
  - rewrite lookup_empty. by destruct (stored !! k).
  - intros i x m acc Hi IH.
    destruct (decide (i = k)) as [->|Hne].
    + rewrite lookup_insert_eq. rewrite Hi in IH.
      destruct (acc !! k) as [v|] eqn:Hacc.
      * rewrite Hacc, IH. destruct (stored !! k); [done|]. simpl in IH. done.
      * rewrite lookup_insert_eq. by destruct (stored !! k).
    + rewrite lookup_insert_ne by done.
      destruct (acc !! i); [done|]. by rewrite lookup_insert_ne.
Qed.

(** ** Scenario A (claim C1) *)

(** C1. On the Scenario A schema, [Parse] of
    [info student -V -v --output ./opt/dir --no-clean] succeeds with command
    name [info], category = student, username and subjects empty,
    verbose = true, version = 1.0.1 (the value after [-V] is flag-shaped, so
    nothing is consumed and the default applies), output = ./opt/dir and
    clean = false. *)
Theorem scenarioA_parse :
  exists store,
    Parse scenarioA tokensA = Returns (Some store) None
    /\ CommandParsed.Name store = "info"
    /\ CommandParsed.Args store !! "category" = Some (Arg.mk "category" false "student")
    /\ CommandParsed.Args store !! "username" = Some (Arg.mk "username" false "")
    /\ CommandParsed.Args store !! "subjects" = Some (Arg.mk "subjects" true "")
    /\ CommandParsed.Flags store !! "verbose" = Some (Flag.mk "verbose" true "true")
    /\ CommandParsed.Flags store !! "version" = Some (Flag.mk "version" false "1.0.1")
    /\ CommandParsed.Flags store !! "output" = Some (Flag.mk "output" false "./opt/dir")
    /\ CommandParsed.Flags store !! "clean" = Some (Flag.mk "clean" true "false")
    /\ dom (CommandParsed.Args store) = {["category"; "username"; "subjects"]}
    /\ dom (CommandParsed.Flags store) = {["verbose"; "version"; "output"; "clean"]}.
Proof.
  exists (storeOf (Parse scenarioA tokensA)).
  repeat split; vm_compute; reflexivity.
Qed.

(** ** Positional values and filled slots (claim C2) *)

(** Whatever the store holds, a positional value is first checked against
    the slot the loop stands at, before the loop looks whether that slot is
    filled. *)
Lemma assignArg_validates_first commandConfig argName names index value store varg :
  CommandConfig.Args commandConfig !! argName = Some varg →
  ArgCommand.Validate varg value = false →
  assignArg commandConfig (argName :: names) index value store
  = Abort (ErrorUnsupportedValue (ArgCommand.Name varg) value).
Proof. intros Hv Hval. simpl. by rewrite Hv, Hval. Qed.

(** C2 (the code departs from the claim). On the Scenario A schema the
    value [john] follows [student]: the slot [category] is filled, the first
    unset slot is [username], which accepts every value, and yet [Parse]
    answers Unsupported-Value naming [category]. *)
Theorem filled_slot_rejects_later_value :
  Parse scenarioA ["info"; "student"; "john"]
  = Returns None (Some (ErrorUnsupportedValue "category" "john"))
  /\ (exists store,
        resolve infoCommand ["student"] (CommandParsed.mk "info" ∅ ∅) = Continue store
        /\ CommandParsed.Args store !! "category" = Some (Arg.mk "category" false "student")
        /\ CommandParsed.Args store !! "username" = None)
  /\ CommandConfig.ArgNames infoCommand = ["category"; "username"; "subjects"]
  /\ (ArgCommand.ValidVals <$> CommandConfig.Args infoCommand !! "username") = Some ∅.
Proof.
  split; [vm_compute; reflexivity|]. split.
  - exists (match resolve infoCommand ["student"] (CommandParsed.mk "info" ∅ ∅) with
            | Continue s => s | _ => CommandParsed.mk "" ∅ ∅ end).
    repeat split; vm_compute; reflexivity.
  - split; vm_compute; reflexivity.
Qed.

(** ** Re-registration (claim C5) *)

Lemma AddArg_registered commandConfig name defaultValue d :
  CommandConfig.Args commandConfig !! argKey name = Some d →
  AddArg commandConfig name defaultValue = (commandConfig, argKey name, true).
Proof.
  unfold AddArg, argKey.
  destruct (isVariadicArgument (removeWhitespaces name)) as [[|] argName];
    intros ->; reflexivity.
Qed.

Lemma AddFlag_registered commandConfig name shortName isBool defaultValue d :
  CommandConfig.Flags commandConfig !! flagKey name isBool = Some d →
  AddFlag commandConfig name shortName isBool defaultValue
  = (commandConfig, flagKey name isBool, true).
Proof.
  unfold AddFlag, flagKey.
  destruct isBool; cbn [andb]; [destruct (strings.HasPrefix name "no-")|];
    intros ->; reflexivity.
Qed.

(** On a registered name [AddArgWithValid] still calls [SetValidVals] on the
    stored definition. *)
Lemma AddArgWithValid_registered commandConfig name defaultValue validVals d :
  CommandConfig.Args commandConfig !! argKey name = Some d →
  AddArgWithValid commandConfig name defaultValue validVals
  = (CommandConfig.setArgs commandConfig
       (<[argKey name := ArgCommand.SetValidVals d validVals]>
          (CommandConfig.Args commandConfig)),
     argKey name, true).
Proof.
  intros Hd. unfold AddArgWithValid.
  rewrite (AddArg_registered _ _ _ _ Hd).
  do 3 f_equal. apply map_eq. intros k.
  destruct (decide (k = argKey name)) as [->|Hne].
  - rewrite lookup_alter_eq, lookup_insert_eq, Hd. reflexivity.
  - rewrite lookup_alter_ne, lookup_insert_ne by done. reflexivity.
Qed.

Lemma AddFlagWithValid_registered commandConfig name shortName isBool defaultValue validVals d :
  CommandConfig.Flags commandConfig !! flagKey name isBool = Some d →
  AddFlagWithValid commandConfig name shortName isBool defaultValue validVals
  = (CommandConfig.setFlags commandConfig
       (<[flagKey name isBool := FlagCommand.SetValidVals d validVals]>
          (CommandConfig.Flags commandConfig)),
     flagKey name isBool, true).
Proof.
  intros Hd. unfold AddFlagWithValid.
  rewrite (AddFlag_registered _ _ _ _ _ _ Hd).
  do 3 f_equal. apply map_eq. intros k.
  destruct (decide (k = flagKey name isBool)) as [->|Hne].
  - rewrite lookup_alter_eq, lookup_insert_eq, Hd. reflexivity.
  - rewrite lookup_alter_ne, lookup_insert_ne by done. reflexivity.
Qed.

(** C5 (the code departs from the claim). [category] is registered with the
    valid values manager and student; registering [category] again through
    [AddArgWithValid] reports the name as registered and returns the same
    definition, but that definition's valid-value set is now [{worker}]:
    [student], accepted before, is rejected. *)
Theorem AddArgWithValid_overwrites_valid_values :
  let c0 := CommandConfig.mk "info" ∅ ∅ ∅ [] in
  let '(c1, a1, _) := AddArgWithValid c0 "category" "manager" ["manager"; "student"] in
  let '(c2, a2, existed) := AddArgWithValid c1 "category" "manager" ["worker"] in
  existed = true /\ a2 = a1
  /\ CommandConfig.ArgNames c2 = CommandConfig.ArgNames c1
  /\ (ArgCommand.ValidVals <$> CommandConfig.Args c1 !! a1) = Some {["manager"; "student"]}
  /\ (ArgCommand.ValidVals <$> CommandConfig.Args c2 !! a2) = Some {["worker"]}
  /\ (flip ArgCommand.Validate "student" <$> CommandConfig.Args c1 !! a1) = Some true
  /\ (flip ArgCommand.Validate "student" <$> CommandConfig.Args c2 !! a2) = Some false.
Proof. vm_compute. repeat split. Qed.

(** ** Empty values (claim C9) *)

(** An empty value leaves the loop, whatever follows it. *)
Lemma resolve_stops_at_empty commandConfig rest store :
  resolve commandConfig ("" :: rest) store = Continue store.
Proof. reflexivity. Qed.

(** C9 (the code departs from the claim). On the Scenario A schema the
    value [student] follows an empty value: the loop has left at the empty
    value, [student] is matched against nothing and [category] keeps its
    default. *)
Theorem values_after_empty_are_skipped :
  exists store,
    Parse scenarioA ["info"; ""; "student"] = Returns (Some store) None
    /\ CommandParsed.Args store !! "category" = Some (Arg.mk "category" false "manager")
    /\ formatCommandValues [""; "student"] = [""; "student"].
Proof.
  exists (storeOf (Parse scenarioA ["info"; ""; "student"])).
  repeat split; vm_compute; reflexivity.
Qed.

(** ** Malformed flags come first (claim C3) *)

Lemma find_app_first {A} (f : A → bool) (l1 l2 : list A) :
  List.find f (l1 ++ l2) =
  match List.find f l1 with Some x => Some x | None => List.find f l2 end.
Proof. induction l1 as [|x l1 IH]; simpl; [done|]. by destruct (f x). Qed.

Lemma find_is_Some {A} (f : A → bool) (l : list A) x :
  In x l → f x = true → ∃ y, List.find f l = Some y.
Proof.
  intros Hin Hfx. destruct (List.find f l) as [y|] eqn:Hfind; [eauto|].
  rewrite (List.find_none f l Hfind x Hin) in Hfx. discriminate.
Qed.

Lemma Split_head s sep : ∃ p ps, strings.Split s sep = p :: ps.
Proof.
  induction s as [|c s (p & ps & IH)]; simpl; [eauto|].
  destruct (Ascii.eqb c sep); [eauto|]. rewrite IH. eauto.
Qed.

Lemma Split_no_sep s sep : hasByte s sep = false → strings.Split s sep = [s].
Proof.
  induction s as [|c s IH]; simpl; [done|].
  rewrite Ascii.eqb_sym. intros [Hc Hs]%orb_false_elim.
  rewrite Hc, IH by done. done.
Qed.

Lemma Split_dash s p ps :
  strings.Split s "=" = p :: ps → strings.Split (String "-" s) "=" = String "-" p :: ps.
Proof.
  intros H. cbn [strings.Split]. change (Ascii.eqb "-" "=") with false.
  by rewrite H.
Qed.

Lemma Trim_dash_nonempty x :
  String.eqb (strings.Trim (String "-" x) " ") "" = false.
Proof.
  unfold strings.Trim. simpl. by destruct (strings.TrimRight x " ").
Qed.

Lemma HasPrefix_cons b s a p :
  strings.HasPrefix (String b s) (String a p) = Ascii.eqb a b && strings.HasPrefix s p.
Proof. reflexivity. Qed.

Lemma HasPrefix_empty p : strings.HasPrefix "" (String "-" p) = false.
Proof. reflexivity. Qed.

Lemma HasPrefix_nil s : strings.HasPrefix s "" = true.
Proof. reflexivity. Qed.

(** Decide every byte comparison in the goal: compute it when both bytes are
    known, split on it otherwise. *)
Ltac eqb_cases :=
  repeat match goal with
         | |- context [Ascii.eqb ?a ?b] =>
             first [ is_var b; destruct (Ascii.eqb_spec a b); subst
                   | is_var a; destruct (Ascii.eqb_spec a b); subst
                   | let v := eval vm_compute in (Ascii.eqb a b) in
                     change (Ascii.eqb a b) with v ]
         end;
  cbn [andb orb negb].

(** Case analysis on the leading bytes a prefix test compares. *)
Ltac prefix_cases :=
  unfold isFlag, isShortFlag, isUnsupportedFlag in *;
  repeat (rewrite ?HasPrefix_cons, ?HasPrefix_nil, ?HasPrefix_empty in * );
  repeat match goal with
         | H : context [Ascii.eqb "-" ?c] |- _ =>
             destruct (Ascii.eqb_spec "-" c); subst
         | |- context [Ascii.eqb "-" ?c] =>
             destruct (Ascii.eqb_spec "-" c); subst
         end.

Lemma isFlag_dash t : isFlag t = true → ∃ c x, t = String "-" (String c x).
Proof.
  destruct t as [|c1 [|c2 x]]; [discriminate..|].
  intros H. prefix_cases; [eauto|discriminate].
Qed.

Lemma formatValue_no_eq t :
  isFlag t = true → hasByte t "=" = false → formatValue t = [t].
Proof.
  intros Hflag Heq. unfold formatValue. rewrite Hflag, Split_no_sep by done.
  destruct (isFlag_dash t Hflag) as (c & x & ->).
  cbn [List.filter]. by rewrite Trim_dash_nonempty.
Qed.

Lemma malformedFlag_unsupported t : malformedFlag t = true → unsupportedShape t = true.
Proof.
  unfold malformedFlag, unsupportedShape. intros [Hflag H]%andb_true_iff.
  rewrite Hflag. destruct (isFlag_dash t Hflag) as (c & x & ->).
  destruct x as [|c3 x]; prefix_cases; done.
Qed.

(** A malformed value leaves an unsupported part in the normalized stream:
    the part before its first [=]. *)
Lemma malformedFlag_part t :
  malformedFlag t = true → ∃ p, In p (formatValue t) ∧ unsupportedShape p = true.
Proof.
  intros Hm. pose proof (malformedFlag_unsupported t Hm) as Hu.
  unfold malformedFlag in Hm. apply andb_true_iff in Hm as [Hflag Hm].
  unfold formatValue. rewrite Hflag.
  destruct (isFlag_dash t Hflag) as (c & x & ->).
  apply orb_true_iff in Hm as [H3|H2].
  - destruct x as [|c3 r]; [prefix_cases; discriminate|].
    assert (c = "-"%char ∧ c3 = "-"%char) as [-> ->].
    { prefix_cases; done. }
    destruct (Split_head r "=") as (p & ps & Hr).
    rewrite (Split_dash _ _ _ (Split_dash _ _ _ (Split_dash _ _ _ Hr))).
    cbn [List.filter]. rewrite Trim_dash_nonempty.
    exists (String "-" (String "-" (String "-" p))). split; [by left|].
    reflexivity.
  - apply andb_true_iff in H2 as [Hlen _].
    destruct x; [|discriminate].
    assert (c = "-"%char) as ->.
    { unfold unsupportedShape in Hu. prefix_cases; done. }
    exists "--". split; [by left|reflexivity].
Qed.

(** C3, counterexample: with no root command registered the value
    [---version] is consumed as the command name and the answer is
    Unknown-Command. *)
Lemma no_root_malformed_command_name :
  Parse NewRegistry ["---version"]
  = Returns None (Some (ErrorUnknownCommand "---version"))
  /\ Parse NewRegistry ["---version"]
     <> Returns None (Some (ErrorUnsupportedFlag "---version")).
Proof. split; [vm_compute; reflexivity|intros H; vm_compute in H; discriminate H]. Qed.

(** The flag named is a part of the normalized stream: for [---v=1.0.0] it
    is [---v], and of two malformed values the first is named. *)
Lemma unsupported_flag_names_first_part :
  Parse rootOnly ["---v=1.0.0"] = Returns None (Some (ErrorUnsupportedFlag "---v"))
  /\ Parse rootOnly ["---a"; "---b"] = Returns None (Some (ErrorUnsupportedFlag "---a")).
Proof. split; vm_compute; reflexivity. Qed.

(** C3, as amended. When the root command is registered,
    [Parse(---version)] is Unsupported-Flag naming [---version]. In general,
    when the values left after the command selection hold a malformed
    flag-shaped value, [Parse] answers Unsupported-Flag, whatever the
    registry holds (so before any Unknown-Command or Unknown-Flag): the flag
    named is the first unsupported part of the normalized stream, which is
    the malformed value itself when no unsupported part precedes it and it
    holds no [=]. *)
Theorem unsupported_flag_precedes_lookup (registry : Registry) (values : list string) :
  (is_Some (registry !! "") →
   Parse registry ["---version"]
   = Returns None (Some (ErrorUnsupportedFlag "---version")))
  /\ (∀ t, In t (selectCommand registry values).2 → malformedFlag t = true →
      ∃ t', Parse registry values = Returns None (Some (ErrorUnsupportedFlag t'))
            /\ firstUnsupported (formatCommandValues (selectCommand registry values).2) = Some t'
            /\ unsupportedShape t' = true
            /\ (∀ pre post : list string,
                  (selectCommand registry values).2 = (pre ++ t :: post)%list →
                  firstUnsupported (formatCommandValues pre) = None →
                  hasByte t "=" = false → t' = t)).
Proof.
  split.
  - intros [root Hroot]. unfold Parse, selectCommand, isRootCommand.
    rewrite Hroot. reflexivity.
  - intros t Hin Hm. unfold Parse.
    destruct (selectCommand registry values) as [commandName rest]. simpl in *.
    destruct (malformedFlag_part t Hm) as (p & Hp & Hpu).
    assert (In p (formatCommandValues rest)) as Hpin.
    { unfold formatCommandValues. apply in_flat_map. eauto. }
    destruct (find_is_Some unsupportedShape _ p Hpin Hpu) as [t' Ht'].
    unfold firstUnsupported. fold unsupportedShape. rewrite Ht'.
    exists t'. split; [done|]. split; [done|].
    split; [by apply List.find_some in Ht' as [_ ?]|].
    intros pre post -> Hpre Heq.
    unfold formatCommandValues in Ht'. rewrite flat_map_app in Ht'.
    rewrite find_app_first in Ht'.
    unfold firstUnsupported, formatCommandValues in Hpre. fold unsupportedShape in Hpre.
    rewrite Hpre in Ht'. simpl in Ht'.
    pose proof (malformedFlag_unsupported t Hm) as Hu.
    assert (isFlag t = true) as Hflag.
    { unfold unsupportedShape in Hu. by apply andb_true_iff in Hu as [? _]. }
    rewrite (formatValue_no_eq t Hflag Heq) in Ht'. simpl in Ht'.
    rewrite Hu in Ht'. congruence.
Qed.

Lemma unsupported_flag_precedes_lookup_witness :
  Parse rootOnly ["---version"] = Returns None (Some (ErrorUnsupportedFlag "---version"))
  /\ ∃ t', Parse NewRegistry ["run"; "-v"; "---x"]
           = Returns None (Some (ErrorUnsupportedFlag t')).
Proof.
  split.
  - apply (proj1 (unsupported_flag_precedes_lookup rootOnly [])).
    vm_compute. eauto.
  - destruct (proj2 (unsupported_flag_precedes_lookup NewRegistry ["run"; "-v"; "---x"])
                "---x") as (t' & Ht' & _).
    + vm_compute. right. left. reflexivity.
    + reflexivity.
    + exists t'. exact Ht'.
Defined.

(** ** Inverted flags (claim C4) *)

Lemma TrimLeft_id s cutset :
  (∀ c r, s = String c r → strings.inCutset c cutset = false) →
  strings.TrimLeft s cutset = s.
Proof.
  destruct s as [|c r]; [done|]. intros H. cbn [strings.TrimLeft].
  by rewrite (H c r eq_refl).
Qed.

(** C4, counterexample: with [isBool = false] the name [no-clean] is a plain
    flag, filed under [no-clean], not inverted, with the default value and
    the short alias it was given. *)
Lemma no_prefix_without_isBool_is_plain :
  let '(c, f, _) := AddFlag (CommandConfig.mk "info" ∅ ∅ ∅ []) "no-clean" "c" false "x" in
  f = "no-clean"
  /\ CommandConfig.Flags c !! "clean" = None
  /\ CommandConfig.Flags c !! "no-clean"
     = Some (FlagCommand.mk "no-clean" "c" false false "x" "" ∅)
  /\ CommandConfig.flagsShort c !! "c" = Some "no-clean".
Proof. vm_compute. repeat split. Qed.

(** The prefix is removed with [TrimLeft], which takes ["no-"] as a set of
    bytes: every leading [n], [o] and [-] goes. *)
Lemma no_prefix_is_trimmed_as_cutset :
  (AddFlag (CommandConfig.mk "info" ∅ ∅ ∅ []) "no-output" "" true "").1.2 = "utput"
  /\ (AddFlag (CommandConfig.mk "info" ∅ ∅ ∅ []) "no-notify" "" true "").1.2 = "tify".
Proof. split; vm_compute; reflexivity. Qed.

(** C4, as amended. For a name [no-<rest>] registered with [isBool = true],
    where [<rest>] does not begin with [n], [o] or [-] and is not yet the
    name of a flag of the command, [AddFlag] files an inverted flag under
    [<rest>]: boolean, default value true, no short alias (the alias table
    is left as it was), whatever [shortName] and [defaultValue] are. *)
Theorem AddFlag_inverted commandConfig rest shortName defaultValue :
  (∀ c r, rest = String c r → strings.inCutset c "no-" = false) →
  CommandConfig.Flags commandConfig !! rest = None →
  AddFlag commandConfig ("no-" +:+ rest) shortName true defaultValue
  = (CommandConfig.setFlags commandConfig
       (<[rest := FlagCommand.mk rest "" true true "true" "" ∅]>
          (CommandConfig.Flags commandConfig)),
     rest, false).
Proof.
  intros Hrest Hfree. unfold AddFlag.
  change (strings.HasPrefix ("no-" +:+ rest) "no-") with true.
  change (strings.TrimLeft ("no-" +:+ rest) "no-") with (strings.TrimLeft rest "no-").
  rewrite (TrimLeft_id rest "no-" Hrest). cbn iota beta.
  rewrite Hfree. reflexivity.
Qed.

Lemma AddFlag_inverted_witness :
  AddFlag (CommandConfig.mk "info" ∅ ∅ ∅ []) "no-clean" "c" true "x"
  = (CommandConfig.mk "info"
       (<["clean" := FlagCommand.mk "clean" "" true true "true" "" ∅]> ∅) ∅ ∅ [],
     "clean", false).
Proof.
  apply (AddFlag_inverted (CommandConfig.mk "info" ∅ ∅ ∅ []) "clean" "c" "x").
  - intros c r [= <- <-]. reflexivity.
  - reflexivity.
Defined.

(** ** Command selection (claim C6) *)

(** C6, counterexample: the name [foo] is selected and is not registered,
    but a malformed flag follows it and the answer is Unsupported-Flag. *)
Lemma unknown_command_after_malformed_flag :
  selectCommand NewRegistry ["foo"; "---x"] = ("foo", ["---x"])
  /\ NewRegistry !! "foo" = (None : option CommandConfig.t)
  /\ Parse NewRegistry ["foo"; "---x"]
     = Returns None (Some (ErrorUnsupportedFlag "---x")).
Proof. repeat split. Qed.

(** C6, as amended. The root command is selected (and no value consumed)
    exactly when it is registered and the list is empty, or its first value
    is flag-shaped, or its first value is no registered command name while
    the root command declares an argument. Otherwise the first value is
    taken as the command name (the empty name, when the list is empty or
    its first value is empty). When the selected name is not registered and
    no flag-shaped part of the normalized remaining values is unsupported,
    [Parse] answers Unknown-Command with that name. *)
Theorem root_selection (registry : Registry) (values : list string) :
  (isRootCommand values registry = true ↔
   ∃ root, registry !! "" = Some root ∧
     (values = [] ∨
      ∃ v0 rest, values = v0 :: rest ∧
        (isFlag v0 = true ∨
         (registry !! v0 = None ∧ (0 < size (CommandConfig.Args root))%nat))))
  /\ (isRootCommand values registry = true →
      selectCommand registry values = ("", values))
  /\ (isRootCommand values registry = false →
      selectCommand registry values = nextValue values)
  /\ ((selectCommand registry values).1 = "" ↔
      isRootCommand values registry = true ∨ values = [] ∨ ∃ rest, values = "" :: rest)
  /\ (∀ name rest,
        selectCommand registry values = (name, rest) →
        registry !! name = None →
        firstUnsupported (formatCommandValues rest) = None →
        Parse registry values = Returns None (Some (ErrorUnknownCommand name))).
Proof.
  split; [|split; [|split; [|split]]].
  - unfold isRootCommand. destruct (registry !! "") as [root|] eqn:Hroot.
    + destruct values as [|v0 rest].
      * split; [|done]. intros _. exists root. auto.
      * destruct (isFlag v0) eqn:Hflag.
        { split; [|done]. intros _. exists root. split; [done|]. right. eauto. }
        split.
        -- intros [Hsize Hreg]%andb_true_iff. exists root. split; [done|].
           right. exists v0, rest. split; [done|]. right.
           apply Nat.ltb_lt in Hsize. apply negb_true_iff in Hreg.
           apply bool_decide_eq_false in Hreg.
           split; [|done]. by apply eq_None_not_Some.
        -- intros (root' & [= <-] & [?|(v & r & [= <- <-] & [?|[Hnone Hsize]])]);
             [done|congruence|].
           apply andb_true_iff. split; [by apply Nat.ltb_lt|].
           apply negb_true_iff, bool_decide_eq_false. rewrite Hnone.
           by intros [? ?].
    + split; [done|]. by intros (root & ? & _).
  - unfold selectCommand. by intros ->.
  - unfold selectCommand. by intros ->.
  - unfold selectCommand. destruct (isRootCommand values registry).
    + split; [by left|done].
    + destruct values as [|v0 rest]; cbn [nextValue fst].
      * split; [by right; left|done].
      * split; [intros ->; right; right; eauto|].
        intros [?|[?|[rest' [= -> _]]]]; done.
  - intros name rest Hsel Hname Hscan. unfold Parse.
    rewrite Hsel, Hscan, Hname. reflexivity.
Qed.

Lemma root_selection_witness :
  Parse NewRegistry ["foo"; "-v"] = Returns None (Some (ErrorUnknownCommand "foo")).
Proof.
  apply (proj2 (proj2 (proj2 (proj2 (root_selection NewRegistry ["foo"; "-v"]))))
           "foo" ["-v"]);
    reflexivity.
Defined.

(** ** The defaulting pass (claim C10) *)

(** An Unsupported-Value answer always carries one of the values of the
    normalized stream: a default value is never its subject. *)
Lemma lookupFlag_Abort c value e :
  lookupFlag c value = Abort e → e = ErrorUnknownFlag value.
Proof.
  unfold lookupFlag. destruct (isShortFlag value).
  - destruct (CommandConfig.flagsShort c !! _) as [l|]; [|by intros [= <-]].
    by destruct (CommandConfig.Flags c !! l).
  - destruct (isInvertedFlag value) as [[|] flagName];
      destruct (CommandConfig.Flags c !! flagName) as [flag|];
      try (by intros [= <-]); try done.
    destruct (FlagCommand.IsInverted flag); [by intros [= <-]|done].
Qed.

Lemma assignArg_Abort c names index value store e :
  assignArg c names index value store = Abort e →
  ∃ n, e = ErrorUnsupportedValue n value.
Proof.
  revert index store. induction names as [|argName names IH]; intros index store; [done|].
  cbn [assignArg]. destruct (CommandConfig.Args c !! argName) as [varg|]; [|done].
  destruct (negb (ArgCommand.Validate varg value)); [intros [= <-]; eauto|].
  destruct (CommandParsed.Args store !! ArgCommand.Name varg) as [arg|].
  - destruct (strings.len (Arg.Value arg) =? 0)%nat; [done|]. apply IH.
  - cbn. done.
Qed.

Lemma resolve_Abort_value c valuesToProcess store n v :
  resolve c valuesToProcess store = Abort (ErrorUnsupportedValue n v) →
  In v valuesToProcess.
Proof.
  revert store.
  induction valuesToProcess as [|value rest IH1 IH2] using tokens_ind;
    intros store; [done|].
  cbn [resolve]. destruct (strings.len value =? 0)%nat; [done|].
  destruct (isFlag value).
  - destruct (lookupFlag c value) as [flag|e|] eqn:Hlook; [|cbn [bind]..|done].
    + cbn [bind]. destruct (FlagCommand.IsBoolean flag).
      * destruct (FlagCommand.IsInverted flag); intros H%IH1; by right.
      * destruct rest as [|next rest']; [intros H%IH1; by right|].
        destruct (negb (strings.len next =? 0)%nat && negb (isFlag next));
          [|intros H%IH1; by right].
        destruct (negb (FlagCommand.Validate flag next)).
        -- intros [= _ <-]. right. by left.
        -- intros H. apply (IH2 next rest' eq_refl) in H. right. by right.
    + apply lookupFlag_Abort in Hlook as ->. done.
  - destruct (assignArg c (CommandConfig.ArgNames c) 0 value store) as [store1|e|] eqn:Ha;
      [|cbn [bind]..|done].
    + cbn [bind]. intros H%IH1. by right.
    + apply assignArg_Abort in Ha as [n' ->]. intros [= _ <-]. by left.
Qed.

Lemma unsupported_value_is_a_token (registry : Registry) (values : list string) n v :
  Parse registry values = Returns None (Some (ErrorUnsupportedValue n v)) →
  In v (formatCommandValues (selectCommand registry values).2).
Proof.
  unfold Parse. destruct (selectCommand registry values) as [commandName rest].
  cbn [snd]. destruct (firstUnsupported _); [done|].
  destruct (registry !! commandName) as [c|]; [|done].
  destruct (resolve c _ _) as [store|e|] eqn:Hres; [done| |done].
  intros [= ->]. by apply resolve_Abort_value in Hres.
Qed.

(** C10. Once the command is selected and registered, no flag-shaped part
    is unsupported and the pass over the values has gone through, [Parse]
    succeeds: every declared flag and argument the pass left unset carries
    its default value in the result, whether or not the default is in the
    valid-value set. *)
Theorem defaults_are_not_validated (registry : Registry) (values : list string)
    commandName rest commandConfig store0 :
  selectCommand registry values = (commandName, rest) →
  firstUnsupported (formatCommandValues rest) = None →
  registry !! commandName = Some commandConfig →
  resolve commandConfig (formatCommandValues rest)
    (CommandParsed.mk (CommandConfig.Name commandConfig) ∅ ∅) = Continue store0 →
  ∃ store,
    Parse registry values = Returns (Some store) None
    /\ (∀ k flag,
          CommandConfig.Flags commandConfig !! k = Some flag →
          CommandParsed.Flags store0 !! k = None →
          CommandParsed.Flags store !! k
          = Some (Flag.mk (FlagCommand.Name flag) (FlagCommand.IsBoolean flag)
                    (FlagCommand.DefaultValue flag)))
    /\ (∀ k arg,
          CommandConfig.Args commandConfig !! k = Some arg →
          CommandParsed.Args store0 !! k = None →
          CommandParsed.Args store !! k
          = Some (Arg.mk (ArgCommand.Name arg) (ArgCommand.IsVariadic arg)
                    (ArgCommand.DefaultValue arg))).
Proof.
  intros Hsel Hscan Hreg Hres.
  exists (storeDefaults commandConfig store0). split; [|split].
  - unfold Parse. rewrite Hsel, Hscan, Hreg, Hres. reflexivity.
  - intros k flag Hk Hunset. cbn [storeDefaults CommandParsed.Flags].
    rewrite defaultFlags_lookup, Hunset, Hk. reflexivity.
  - intros k arg Hk Hunset. cbn [storeDefaults CommandParsed.Args].
    rewrite defaultArgs_lookup, Hunset, Hk. reflexivity.
Qed.

Lemma defaults_are_not_validated_witness :
  (flip FlagCommand.Validate "medium" <$> CommandConfig.Flags runCommand !! "level")
  = Some false
  /\ ∃ store,
       Parse levels ["run"] = Returns (Some store) None
       /\ CommandParsed.Flags store !! "level" = Some (Flag.mk "level" false "medium")
       /\ CommandParsed.Args store !! "target" = Some (Arg.mk "target" false "nowhere").
Proof.
  split; [vm_compute; reflexivity|].
  destruct (defaults_are_not_validated levels ["run"] "run" [] runCommand
              (CommandParsed.mk "run" ∅ ∅))
    as (store & Hparse & Hflags & Hargs); [reflexivity..|].
  exists store. split; [exact Hparse|]. split.
  - apply (Hflags "level" (FlagCommand.mk "level" "l" false false "medium" ""
                             {["low"; "high"]})); vm_compute; reflexivity.
  - apply (Hargs "target" (ArgCommand.mk "target" false "nowhere" ""
                             {["here"; "there"]})); vm_compute; reflexivity.
Defined.

(** ** The builder keeps registries well formed *)

(** The builder only makes well-formed registries. *)
Lemma wfConfig_new name : wfConfig (CommandConfig.mk name ∅ ∅ ∅ []).
Proof. split; [constructor|apply map_Forall_empty]. Qed.

Lemma wfRegistry_new : wfRegistry NewRegistry.
Proof. apply map_Forall_empty. Qed.

Lemma Register_wf registry name :
  wfRegistry registry → wfRegistry (Register registry name).1.1.
Proof.
  intros Hwf. unfold Register.
  destruct (registry !! removeWhitespaces name); [done|].
  apply map_Forall_insert_2; [apply wfConfig_new|done].
Qed.

Lemma AddArg_wf c name defaultValue :
  wfConfig c → wfConfig (AddArg c name defaultValue).1.1.
Proof.
  intros [Hargs Hflags]. unfold AddArg.
  destruct (isVariadicArgument (removeWhitespaces name)) as [[|] argName].
  - destruct (CommandConfig.Args c !! argName) eqn:Hk; [done|].
    split; [|done]. cbn. apply Forall_app. split.
    + eapply Forall_impl; [exact Hargs|]. intros n [d Hd].
      rewrite lookup_insert. case_decide; eauto.
    + constructor; [|constructor]. rewrite lookup_insert_eq. eauto.
  - destruct (CommandConfig.Args c !! removeWhitespaces name) eqn:Hk; [done|].
    split; [|done]. cbn. apply Forall_app. split.
    + eapply Forall_impl; [exact Hargs|]. intros n [d Hd].
      rewrite lookup_insert. case_decide; eauto.
    + constructor; [|constructor]. rewrite lookup_insert_eq. eauto.
Qed.

Lemma AddArgWithValid_wf c name defaultValue validVals :
  wfConfig c → wfConfig (AddArgWithValid c name defaultValue validVals).1.1.
Proof.
  intros Hwf. pose proof (AddArg_wf c name defaultValue Hwf) as [Hargs Hflags].
  unfold AddArgWithValid. destruct (AddArg c name defaultValue) as [[c1 a] existed].
  split; [|done]. cbn in *.
  eapply Forall_impl; [exact Hargs|]. intros n [d Hd].
  destruct (decide (a = n)) as [->|].
  - rewrite lookup_alter_eq, Hd. eauto.
  - rewrite lookup_alter_ne by done. eauto.
Qed.

Lemma insert_flag_wf c k flag :
  CommandConfig.Flags c !! k = None → wfConfig c →
  wfConfig (CommandConfig.setFlags c (<[k := flag]> (CommandConfig.Flags c))).
Proof.
  intros Hk [Hargs Hflags]. split; [done|]. cbn.
  intros s l Hs. destruct (Hflags s l Hs) as [d Hd]. cbn in Hd.
  rewrite lookup_insert. case_decide; eauto.
Qed.

Lemma insert_short_wf c s l :
  is_Some (CommandConfig.Flags c !! l) → wfConfig c →
  wfConfig (CommandConfig.setFlagsShort c (<[s := l]> (CommandConfig.flagsShort c))).
Proof.
  intros Hl [Hargs Hflags]. split; [done|]. cbn.
  apply map_Forall_insert_2; done.
Qed.

Lemma AddFlag_wf c name shortName isBool defaultValue :
  wfConfig c → wfConfig (AddFlag c name shortName isBool defaultValue).1.1.
Proof.
  intros Hwf. unfold AddFlag.
  set (sh := if negb (String.eqb (removeWhitespaces shortName) "")
             then String.substring 0 1 (removeWhitespaces shortName)
             else removeWhitespaces shortName).
  destruct isBool; [destruct (strings.HasPrefix name "no-")|]; cbn iota beta.
  - destruct (CommandConfig.Flags c !! strings.TrimLeft name "no-") eqn:Hk; [done|].
    cbn. by apply insert_flag_wf.
  - destruct (CommandConfig.Flags c !! removeWhitespaces name) eqn:Hk; [done|].
    destruct (0 <? strings.len sh)%nat; cbn [fst].
    + apply insert_short_wf; [cbn; rewrite lookup_insert_eq; eauto|].
      by apply insert_flag_wf.
    + by apply insert_flag_wf.
  - destruct (CommandConfig.Flags c !! removeWhitespaces name) eqn:Hk; [done|].
    destruct (0 <? strings.len sh)%nat; cbn [fst].
    + apply insert_short_wf; [cbn; rewrite lookup_insert_eq; eauto|].
      by apply insert_flag_wf.
    + by apply insert_flag_wf.
Qed.

Lemma AddFlagWithValid_wf c name shortName isBool defaultValue validVals :
  wfConfig c → wfConfig (AddFlagWithValid c name shortName isBool defaultValue validVals).1.1.
Proof.
  intros Hwf.
  pose proof (AddFlag_wf c name shortName isBool defaultValue Hwf) as [Hargs Hflags].
  unfold AddFlagWithValid.
  destruct (AddFlag c name shortName isBool defaultValue) as [[c1 f] existed].
  split; [done|]. cbn in *.
  intros s l Hs. destruct (Hflags s l Hs) as [d Hd]. cbn in Hd.
  destruct (decide (f = l)) as [->|].
  - rewrite lookup_alter_eq, Hd. eauto.
  - rewrite lookup_alter_ne by done. eauto.
Qed.

Lemma withCommand_wf name op registry :
  (∀ c, wfConfig c → wfConfig (op c).1.1) →
  wfRegistry registry → wfRegistry (withCommand name op registry).
Proof.
  intros Hop Hwf k c. unfold withCommand.
  destruct (decide (name = k)) as [->|].
  - rewrite lookup_alter_eq. destruct (registry !! k) as [c0|] eqn:Hk; [|done].
    intros [= <-]. apply Hop. exact (Hwf k c0 Hk).
  - rewrite lookup_alter_ne by done. apply Hwf.
Qed.

(** ** Parse is atomic (claim C8) *)

Lemma lookupFlag_no_nil c value :
  wfConfig c → lookupFlag c value ≠ NilDeref.
Proof.
  intros [_ Hflags]. unfold lookupFlag.
  destruct (isShortFlag value).
  - destruct (CommandConfig.flagsShort c !! strings.TrimLeft value "-") as [l|] eqn:Hl;
      [|done].
    destruct (Hflags _ l Hl) as [d Hd]. cbn in Hd. by rewrite Hd.
  - destruct (isInvertedFlag value) as [[|] flagName];
      destruct (CommandConfig.Flags c !! flagName) as [flag|]; try done.
    by destruct (FlagCommand.IsInverted flag).
Qed.

Lemma assignArg_no_nil c names index value store :
  Forall (fun n => is_Some (CommandConfig.Args c !! n)) names →
  assignArg c names index value store ≠ NilDeref.
Proof.
  intros Hnames. revert index store.
  induction Hnames as [|argName names [varg Hvarg] _ IH]; intros index store; [done|].
  cbn [assignArg]. rewrite Hvarg.
  destruct (negb (ArgCommand.Validate varg value)); [done|].
  destruct (CommandParsed.Args store !! ArgCommand.Name varg) as [arg|].
  - destruct (strings.len (Arg.Value arg) =? 0)%nat; [done|]. apply IH.
  - cbn. apply IH || done.
Qed.

Lemma resolve_no_nil c valuesToProcess store :
  wfConfig c → resolve c valuesToProcess store ≠ NilDeref.
Proof.
  intros Hwf. revert store.
  induction valuesToProcess as [|value rest IH1 IH2] using tokens_ind;
    intros store; [done|].
  cbn [resolve]. destruct (strings.len value =? 0)%nat; [done|].
  destruct (isFlag value).
  - pose proof (lookupFlag_no_nil c value Hwf) as Hlook.
    destruct (lookupFlag c value) as [flag|e|]; [|done..]. cbn [bind].
    destruct (FlagCommand.IsBoolean flag).
    + destruct (FlagCommand.IsInverted flag); apply IH1.
    + destruct rest as [|next rest']; [apply IH1|].
      destruct (negb (strings.len next =? 0)%nat && negb (isFlag next)); [|apply IH1].
      destruct (negb (FlagCommand.Validate flag next)); [done|].
      by apply (IH2 next rest').
  - pose proof (assignArg_no_nil c (CommandConfig.ArgNames c) 0 value store (proj1 Hwf))
      as Hassign.
    destruct (assignArg c (CommandConfig.ArgNames c) 0 value store) as [store'|e|];
      [|done..].
    cbn [bind]. apply IH1.
Qed.

Lemma assignArg_Name c names index value store store' :
  assignArg c names index value store = Continue store' →
  CommandParsed.Name store' = CommandParsed.Name store.
Proof.
  revert index store. induction names as [|argName names IH]; intros index store.
  - by intros [= <-].
  - cbn [assignArg]. destruct (CommandConfig.Args c !! argName) as [varg|]; [|done].
    destruct (negb (ArgCommand.Validate varg value)); [done|].
    destruct (CommandParsed.Args store !! ArgCommand.Name varg) as [arg|].
    + destruct (strings.len (Arg.Value arg) =? 0)%nat; [by intros [= <-]|].
      intros H%IH. rewrite H. by destruct (_ && _).
    + cbn. intros [= <-]. reflexivity.
Qed.

Lemma resolve_Name c valuesToProcess store store' :
  resolve c valuesToProcess store = Continue store' →
  CommandParsed.Name store' = CommandParsed.Name store.
Proof.
  revert store.
  induction valuesToProcess as [|value rest IH1 IH2] using tokens_ind;
    intros store; [by intros [= <-]|].
  cbn [resolve]. destruct (strings.len value =? 0)%nat; [by intros [= <-]|].
  destruct (isFlag value).
  - destruct (lookupFlag c value) as [flag|e|]; [|done..]. cbn [bind].
    destruct (FlagCommand.IsBoolean flag).
    + destruct (FlagCommand.IsInverted flag); intros H%IH1; by rewrite H.
    + destruct rest as [|next rest']; [apply IH1|].
      destruct (negb (strings.len next =? 0)%nat && negb (isFlag next)); [|apply IH1].
      destruct (negb (FlagCommand.Validate flag next)); [done|].
      intros H. apply (IH2 next rest' eq_refl) in H. by rewrite H.
  - destruct (assignArg c (CommandConfig.ArgNames c) 0 value store) as [store1|e|] eqn:Ha;
      [|done..].
    cbn [bind]. intros H%IH1. rewrite H. by apply assignArg_Name in Ha.
Qed.

(** C8. On a well-formed registry [Parse] returns an error and no result,
    or a result and no error; the result then holds every flag and every
    argument declared on the selected command, with the value the pass over
    the values stored for it, and with its default when the pass stored
    none. *)
Theorem Parse_atomic (registry : Registry) (values : list string) :
  wfRegistry registry →
  (∃ e, Parse registry values = Returns None (Some e))
  ∨ (∃ commandConfig store0 store,
       registry !! (selectCommand registry values).1 = Some commandConfig
       ∧ resolve commandConfig (formatCommandValues (selectCommand registry values).2)
           (CommandParsed.mk (CommandConfig.Name commandConfig) ∅ ∅) = Continue store0
       ∧ Parse registry values = Returns (Some store) None
       ∧ CommandParsed.Name store = CommandConfig.Name commandConfig
       ∧ (∀ k flag,
            CommandConfig.Flags commandConfig !! k = Some flag →
            CommandParsed.Flags store !! k
            = Some (default (FlagCommand.StoreDefault flag) (CommandParsed.Flags store0 !! k)))
       ∧ (∀ k arg,
            CommandConfig.Args commandConfig !! k = Some arg →
            CommandParsed.Args store !! k
            = Some (default (ArgCommand.StoreDefault arg) (CommandParsed.Args store0 !! k)))).
Proof.
  intros Hwf. unfold Parse.
  destruct (selectCommand registry values) as [commandName rest]. cbn [fst snd].
  destruct (firstUnsupported (formatCommandValues rest)); [eauto|].
  destruct (registry !! commandName) as [commandConfig|] eqn:Hreg; [|eauto].
  pose proof (resolve_no_nil commandConfig (formatCommandValues rest)
                (CommandParsed.mk (CommandConfig.Name commandConfig) ∅ ∅)
                (Hwf _ _ Hreg)) as Hnil.
  destruct (resolve commandConfig (formatCommandValues rest) _) as [store0|e|] eqn:Hres;
    [|eauto|done].
  right. exists commandConfig, store0, (storeDefaults commandConfig store0).
  split; [done|]. split; [done|]. split; [done|]. split.
  - cbn. by apply resolve_Name in Hres.
  - split.
    + intros k flag Hk. cbn. rewrite defaultFlags_lookup, Hk.
      by destruct (CommandParsed.Flags store0 !! k).
    + intros k arg Hk. cbn. rewrite defaultArgs_lookup, Hk.
      by destruct (CommandParsed.Args store0 !! k).
Qed.

Lemma Parse_atomic_witness :
  (∃ e, Parse scenarioA tokensA = Returns None (Some e))
  ∨ (∃ commandConfig store0 store,
       scenarioA !! (selectCommand scenarioA tokensA).1 = Some commandConfig
       ∧ resolve commandConfig (formatCommandValues (selectCommand scenarioA tokensA).2)
           (CommandParsed.mk (CommandConfig.Name commandConfig) ∅ ∅) = Continue store0
       ∧ Parse scenarioA tokensA = Returns (Some store) None
       ∧ CommandParsed.Name store = CommandConfig.Name commandConfig
       ∧ (∀ k flag,
            CommandConfig.Flags commandConfig !! k = Some flag →
            CommandParsed.Flags store !! k
            = Some (default (FlagCommand.StoreDefault flag) (CommandParsed.Flags store0 !! k)))
       ∧ (∀ k arg,
            CommandConfig.Args commandConfig !! k = Some arg →
            CommandParsed.Args store !! k
            = Some (default (ArgCommand.StoreDefault arg) (CommandParsed.Args store0 !! k)))).
Proof.
  apply (Parse_atomic scenarioA tokensA).
  apply (bool_decide_unpack _). vm_compute. exact I.
Defined.

(** ** Long and short spelling (claim C7) *)

(** C7, counterexample: [no-proxy] is a non-inverted flag with the short
    alias [n]; [-n host] stores host, while [--no-proxy host] is read as
    the negated spelling of a flag [proxy] and is Unknown-Flag. *)
Lemma long_spelling_with_no_prefix_is_unknown :
  (CommandConfig.Flags <$> proxied !! "run")
  = Some (<["no-proxy" := FlagCommand.mk "no-proxy" "n" false false "" "" ∅]> ∅)
  /\ (CommandConfig.flagsShort <$> proxied !! "run") = Some (<["n" := "no-proxy"]> ∅)
  /\ (CommandParsed.Flags (storeOf (Parse proxied ["run"; "-n"; "host"])) !! "no-proxy")
     = Some (Flag.mk "no-proxy" false "host")
  /\ Parse proxied ["run"; "--no-proxy"; "host"]
     = Returns None (Some (ErrorUnknownFlag "--no-proxy"))
  /\ Parse proxied ["run"; "-n"; "host"] <> Parse proxied ["run"; "--no-proxy"; "host"].
Proof.
  repeat split; try (vm_compute; reflexivity).
  intros H. vm_compute in H. discriminate H.
Qed.

(** The shape of the two spellings. *)
Lemma short_spelling_shape (y : ascii) :
  y ≠ "-"%char → y ≠ "="%char →
  isFlag (String "-" (String y "")) = true
  ∧ isShortFlag (String "-" (String y "")) = true
  ∧ unsupportedShape (String "-" (String y "")) = false
  ∧ hasByte (String "-" (String y "")) "=" = false
  ∧ strings.TrimLeft (String "-" (String y "")) "-" = String y "".
Proof.
  intros Hdash Heq. unfold unsupportedShape, hasByte, isShortFlag.
  cbn -[Ascii.eqb]. eqb_cases; try congruence; done.
Qed.

Lemma long_spelling_shape (X : string) :
  X ≠ "" → strings.HasPrefix X "-" = false → hasByte X "=" = false →
  isFlag ("--" +:+ X) = true
  ∧ isShortFlag ("--" +:+ X) = false
  ∧ unsupportedShape ("--" +:+ X) = false
  ∧ hasByte ("--" +:+ X) "=" = false
  ∧ strings.TrimLeft ("--" +:+ X) "--" = X.
Proof.
  intros Hne Hdash Heq. unfold unsupportedShape, hasByte, isShortFlag in *.
  destruct X as [|c r]; [done|].
  change ("--" +:+ String c r) with (String "-" (String "-" (String c r))).
  unfold isFlag, isUnsupportedFlag. cbn -[Ascii.eqb] in *.
  apply orb_false_elim in Heq as [Hc Hr]. rewrite Hr.
  revert Hdash Hc. eqb_cases; try congruence; done.
Qed.

Section LongShort.

Variable commandConfig : CommandConfig.t.
Variables (X : string) (y : ascii) (flag : FlagCommand.t).

Let long : string := "--" +:+ X.
Let short : string := String "-" (String y "").

Hypothesis flag_registered : CommandConfig.Flags commandConfig !! X = Some flag.
Hypothesis flag_plain : FlagCommand.IsInverted flag = false.
Hypothesis alias_registered :
  CommandConfig.flagsShort commandConfig !! String y "" = Some X.
Hypothesis y_no_dash : y ≠ "-"%char.
Hypothesis y_no_eq : y ≠ "="%char.
Hypothesis X_nonempty : X ≠ "".
Hypothesis X_no_dash : strings.HasPrefix X "-" = false.
Hypothesis X_no_no : strings.HasPrefix X "no-" = false.
Hypothesis X_no_eq : hasByte X "=" = false.

Lemma short_shape :
  isFlag short = true ∧ unsupportedShape short = false ∧ hasByte short "=" = false.
Proof.
  destruct (short_spelling_shape y y_no_dash y_no_eq) as (? & ? & ? & ? & ?). done.
Qed.

Lemma long_shape :
  isFlag long = true ∧ unsupportedShape long = false ∧ hasByte long "=" = false.
Proof.
  destruct (long_spelling_shape X X_nonempty X_no_dash X_no_eq) as (? & ? & ? & ? & ?).
  done.
Qed.

Lemma lookupFlag_short : lookupFlag commandConfig short = Continue flag.
Proof.
  destruct (short_spelling_shape y y_no_dash y_no_eq) as (_ & Hshort & _ & _ & Htrim).
  unfold lookupFlag. fold short in Hshort, Htrim. rewrite Hshort, Htrim.
  by rewrite alias_registered, flag_registered.
Qed.

Lemma lookupFlag_long : lookupFlag commandConfig long = Continue flag.
Proof.
  destruct (long_spelling_shape X X_nonempty X_no_dash X_no_eq)
    as (Hflag & Hshort & _ & _ & Htrim).
  unfold lookupFlag, isInvertedFlag. fold long in Hflag, Hshort, Htrim.
  rewrite Hshort, Hflag.
  change (strings.HasPrefix long "--no-") with (strings.HasPrefix X "no-").
  rewrite X_no_no. cbn [andb]. rewrite Htrim.
  by rewrite flag_registered, flag_plain.
Qed.

(** One turn of the loop sees the two spellings alike. *)
Lemma resolve_spelling (pre post : list string) store :
  resolve commandConfig (pre ++ short :: post) store
  = resolve commandConfig (pre ++ long :: post) store.
Proof.
  destruct short_shape as (Hs & _ & _). destruct long_shape as (Hl & _ & _).
  assert ((strings.len short =? 0)%nat = false) as Hslen by done.
  assert ((strings.len long =? 0)%nat = false) as Hllen.
  { unfold long. by destruct X. }
  revert store.
  induction pre as [|value rest IH1 IH2] using tokens_ind; intros store.
  - cbn [app resolve]. rewrite Hslen, Hllen, Hs, Hl.
    by rewrite lookupFlag_short, lookupFlag_long.
  - cbn [app resolve]. destruct (strings.len value =? 0)%nat; [done|].
    destruct (isFlag value).
    + destruct (lookupFlag commandConfig value) as [g|e|]; [|done..]. cbn [bind].
      destruct (FlagCommand.IsBoolean g).
      * destruct (FlagCommand.IsInverted g); apply IH1.
      * destruct rest as [|next rest'].
        -- cbn [app]. rewrite Hslen, Hllen, Hs, Hl. cbn [negb andb]. apply (IH1 store).
        -- cbn [app].
           destruct (negb (strings.len next =? 0)%nat && negb (isFlag next));
             [|apply (IH1 store)].
           destruct (negb (FlagCommand.Validate g next)); [done|].
           by apply (IH2 next rest').
    + destruct (assignArg commandConfig (CommandConfig.ArgNames commandConfig) 0 value store)
        as [store1|e|]; [|done..].
      cbn [bind]. apply IH1.
Qed.

Lemma formatCommandValues_spelling (pre post : list string) :
  ∃ fpre fpost,
    formatCommandValues (pre ++ short :: post) = (fpre ++ short :: fpost)%list
    ∧ formatCommandValues (pre ++ long :: post) = (fpre ++ long :: fpost)%list.
Proof.
  destruct short_shape as (Hs & _ & Hse). destruct long_shape as (Hl & _ & Hle).
  exists (formatCommandValues pre), (formatCommandValues post).
  unfold formatCommandValues. rewrite !flat_map_app. cbn [flat_map].
  by rewrite (formatValue_no_eq short Hs Hse), (formatValue_no_eq long Hl Hle).
Qed.

Lemma firstUnsupported_spelling (pre post : list string) :
  firstUnsupported (pre ++ short :: post) = firstUnsupported (pre ++ long :: post).
Proof.
  destruct short_shape as (_ & Hs & _). destruct long_shape as (_ & Hl & _).
  unfold firstUnsupported. fold unsupportedShape. rewrite !find_app_first.
  cbn [List.find]. by rewrite Hs, Hl.
Qed.

End LongShort.

(** The command selection does not tell two flag-shaped values apart, as long
    as the value is not the one taken as the command name. *)
Lemma selectCommand_spelling (registry : Registry) (l1 l2 : list string) t t' :
  isFlag t = true → isFlag t' = true →
  is_Some (registry !! "") ∨ l1 ≠ [] →
  ∃ n p, selectCommand registry (l1 ++ t :: l2) = (n, (p ++ t :: l2)%list)
         ∧ selectCommand registry (l1 ++ t' :: l2) = (n, (p ++ t' :: l2)%list).
Proof.
  intros Ht Ht' Hroot. unfold selectCommand, isRootCommand.
  destruct l1 as [|c l1].
  - destruct Hroot as [[root Hroot]|]; [|done].
    rewrite Hroot. cbn [app]. rewrite Ht, Ht'. by exists "", [].
  - cbn [app]. destruct (registry !! "") as [root|].
    + destruct (isFlag c); [by exists "", (c :: l1)|].
      destruct (_ && _); [by exists "", (c :: l1)|by exists c, l1].
    + by exists c, l1.
Qed.

(** C7, as amended. Let [X] be a non-inverted flag of the selected command
    and [y] a short alias the alias table maps to [X], where [X] is not
    empty, does not begin with [-] or [no-] and holds no [=], and [y] is
    neither [-] nor [=]. Writing [-y] for [--X] at a place of the value list
    that is not taken as the command name leaves the outcome of [Parse]
    unchanged, whatever value follows. *)
Theorem long_short_equivalence (registry : Registry) (l1 l2 : list string)
    (X : string) (y : ascii) commandConfig flag :
  is_Some (registry !! "") ∨ l1 ≠ [] →
  registry !! (selectCommand registry (l1 ++ ("--" +:+ X) :: l2)).1 = Some commandConfig →
  CommandConfig.Flags commandConfig !! X = Some flag →
  FlagCommand.IsInverted flag = false →
  CommandConfig.flagsShort commandConfig !! String y "" = Some X →
  y ≠ "-"%char → y ≠ "="%char →
  X ≠ "" → strings.HasPrefix X "-" = false → strings.HasPrefix X "no-" = false →
  hasByte X "=" = false →
  Parse registry (l1 ++ String "-" (String y "") :: l2)
  = Parse registry (l1 ++ ("--" +:+ X) :: l2).
Proof.
  intros Hroot Hreg Hflag Hplain Halias Hy1 Hy2 HX1 HX2 HX3 HX4.
  destruct (short_shape y Hy1 Hy2) as (Hs & _ & _).
  destruct (long_shape X HX1 HX2 HX4) as (Hl & _ & _).
  destruct (selectCommand_spelling registry l1 l2 _ _ Hs Hl Hroot)
    as (n & p & Hsel_s & Hsel_l).
  rewrite Hsel_l in Hreg. cbn [fst] in Hreg.
  unfold Parse. rewrite Hsel_s, Hsel_l.
  destruct (formatCommandValues_spelling X y Hy1 Hy2 HX1 HX2 HX4 p l2)
    as (fpre & fpost & -> & ->).
  rewrite (firstUnsupported_spelling X y Hy1 Hy2 HX1 HX2 HX4).
  rewrite Hreg.
  by rewrite (resolve_spelling commandConfig X y flag Hflag Hplain Halias
                Hy1 Hy2 HX1 HX2 HX3 HX4).
Qed.

Lemma long_short_equivalence_witness :
  Parse scenarioA ["info"; "student"; "-o"; "./opt/dir"]
  = Parse scenarioA ["info"; "student"; "--output"; "./opt/dir"].
Proof.
  apply (long_short_equivalence scenarioA ["info"; "student"] ["./opt/dir"]
           "output" "o" infoCommand (FlagCommand.mk "output" "o" false false "./" "" ∅));
    try (vm_compute; reflexivity); try discriminate.
  right. discriminate.
Defined.

(** * Further properties of the builder and of the resolver *)

(** ** Cleaning of names and values *)

Lemma ReplaceAll_drop_none s c :
  hasByte s c = false → strings.ReplaceAll s c "" = s.
Proof.
  induction s as [|b s IH]; [done|]. unfold hasByte in *. cbn [strings.inCutset strings.ReplaceAll].
  rewrite Ascii.eqb_sym. intros [Hb Hs]%orb_false_elim.
  rewrite Hb. by rewrite IH.
Qed.

Lemma ReplaceAll_drop_all s c :
  hasByte (strings.ReplaceAll s c "") c = false.
Proof.
  induction s as [|b s IH]; [done|]. unfold hasByte in *. cbn [strings.ReplaceAll].
  destruct (Ascii.eqb b c) eqn:Hb; [exact IH|].
  cbn [strings.inCutset]. by rewrite Ascii.eqb_sym, Hb, IH.
Qed.

Lemma TrimLeft_empty_cutset s : strings.TrimLeft s "" = s.
Proof. by destruct s. Qed.

Lemma TrimRight_empty_cutset s : strings.TrimRight s "" = s.
Proof.
  induction s as [|c s IH]; [done|]. cbn [strings.TrimRight strings.inCutset].
  rewrite IH. by destruct s.
Qed.

Lemma trimWhitespaces_empty_cutset value : trimWhitespaces value = value.
Proof.
  unfold trimWhitespaces, strings.Trim.
  by rewrite TrimLeft_empty_cutset, TrimRight_empty_cutset.
Qed.

(** X1. [removeWhitespaces] leaves no space behind and changes nothing else:
    cleaning a cleaned name gives the same name. *)
Theorem removeWhitespaces_clean (value : string) :
  hasByte (removeWhitespaces value) " " = false
  ∧ removeWhitespaces (removeWhitespaces value) = removeWhitespaces value.
Proof.
  unfold removeWhitespaces. split; [apply ReplaceAll_drop_all|].
  apply ReplaceAll_drop_none, ReplaceAll_drop_all.
Qed.

(** X2. [trimWhitespaces] trims with an empty cutset, so it returns every value
    as it is, leading and trailing spaces included. *)
Theorem trimWhitespaces_identity (value : string) :
  trimWhitespaces value = value.
Proof.
  unfold trimWhitespaces, strings.Trim.
  by rewrite TrimLeft_empty_cutset, TrimRight_empty_cutset.
Qed.

(** ** Valid-value sets *)

Lemma validIn_validSet (validVals : list string) (v : string) :
  validIn (validSet validVals) v = true ↔ validVals = [] ∨ v ∈ validVals.
Proof.
  unfold validIn, validSet. destruct validVals as [|x l].
  - cbn. rewrite size_empty. cbn. naive_solver.
  - cbn [length Nat.eqb].
    assert (0 < size (list_to_set (C := gset string) (x :: l))) as Hpos.
    { enough (size (list_to_set (C := gset string) (x :: l)) ≠ 0) by lia.
      apply size_non_empty_iff. set_solver. }
    apply Nat.ltb_lt in Hpos. rewrite Hpos.
    rewrite bool_decide_eq_true, elem_of_list_to_set.
    split; [by right|]. by intros [?|?].
Qed.

(** X3. After [SetValidVals] with a non-empty list, [Validate] accepts exactly
    the listed values; with an empty list it accepts every value. This holds
    for flags and for arguments, whatever set was there before. *)
Theorem SetValidVals_then_Validate (f : FlagCommand.t) (a : ArgCommand.t)
    (validVals : list string) (v : string) :
  (FlagCommand.Validate (FlagCommand.SetValidVals f validVals) v = true
   ↔ validVals = [] ∨ v ∈ validVals)
  ∧ (ArgCommand.Validate (ArgCommand.SetValidVals a validVals) v = true
     ↔ validVals = [] ∨ v ∈ validVals).
Proof. split; apply validIn_validSet. Qed.

(** ** Register *)

(** X4. [Register] files the command under its name without spaces: a name
    already there keeps its configuration and is reported as registered, a
    new name gets an empty configuration; no other entry changes, and a
    second call with the same name finds the command registered. *)
Theorem Register_once (registry : Registry) (name : string) :
  let '(registry', k, existed) := Register registry name in
  k = removeWhitespaces name
  ∧ existed = bool_decide (is_Some (registry !! k))
  ∧ registry' !! k = Some (default (CommandConfig.mk k ∅ ∅ ∅ []) (registry !! k))
  ∧ delete k registry' = delete k registry
  ∧ Register registry' name = (registry', k, true).
Proof.
  unfold Register.
  destruct (registry !! removeWhitespaces name) as [c|] eqn:Hk.
  - rewrite Hk. split; [done|]. split; [|done].
    rewrite bool_decide_eq_true_2; eauto.
  - rewrite lookup_insert_eq, Hk. split; [done|]. split; [|split; [done|split]].
    + rewrite bool_decide_eq_false_2; [done|]. by intros [? ?].
    + by rewrite delete_insert_eq, delete_id.
    + done.
Qed.

(** ** Shapes of flags *)

(** X5. A flag-shaped value is of exactly one of three kinds: a short flag (one
    dash and one other byte), a long flag (exactly two dashes and then a
    byte that is no dash), or an unsupported flag. *)
Theorem flag_shapes (value : string) :
  isFlag value = true →
  (isShortFlag value = true ∧ isUnsupportedFlag value = false
   ∧ ∃ c, value = String "-" (String c "") ∧ c ≠ "-"%char)
  ∨ (isShortFlag value = false ∧ isUnsupportedFlag value = false
     ∧ ∃ c r, value = String "-" (String "-" (String c r)) ∧ c ≠ "-"%char)
  ∨ (isShortFlag value = false ∧ isUnsupportedFlag value = true).
Proof.
  intros Hflag. destruct (isFlag_dash value Hflag) as (c & x & ->).
  unfold isShortFlag, isFlag, isUnsupportedFlag.
  destruct x as [|c3 x]; cbn -[Ascii.eqb]; eqb_cases;
    first [ solve [right; right; done]
          | solve [left; split; [done|split; [done|eauto]]]
          | solve [right; left; split; [done|split; [done|eauto]]] ].
Qed.

Lemma flag_shapes_witness :
  (isShortFlag "-v" = true ∧ isUnsupportedFlag "-v" = false
   ∧ ∃ c, "-v" = String "-" (String c "") ∧ c ≠ "-"%char)
  ∨ (isShortFlag "-v" = false ∧ isUnsupportedFlag "-v" = false
     ∧ ∃ c r, "-v" = String "-" (String "-" (String c r)) ∧ c ≠ "-"%char)
  ∨ (isShortFlag "-v" = false ∧ isUnsupportedFlag "-v" = true).
Proof. apply (flag_shapes "-v"). reflexivity. Defined.

(** ** Normalization of the values *)

Lemma append_cons c a b : String c a +:+ b = String c (a +:+ b).
Proof. reflexivity. Qed.

Lemma Split_app_sep f v sep :
  hasByte f sep = false →
  strings.Split (f +:+ String sep v) sep = f :: strings.Split v sep.
Proof.
  unfold hasByte. induction f as [|c f IH]; intros Hf.
  - change ("" +:+ String sep v) with (String sep v). cbn [strings.Split].
    by rewrite Ascii.eqb_refl.
  - cbn [strings.inCutset] in Hf. apply orb_false_elim in Hf as [Hc Hf].
    rewrite append_cons. cbn [strings.Split].
    rewrite Ascii.eqb_sym, Hc, IH by done. done.
Qed.

Lemma formatValue_unsplit v :
  hasByte v "=" = false → String.eqb (strings.Trim v " ") "" = false →
  formatValue v = [v].
Proof.
  intros Heq Hblank. unfold formatValue. destruct (isFlag v); [|done].
  rewrite Split_no_sep by done. cbn [List.filter]. by rewrite Hblank.
Qed.

Lemma isFlag_append f x : isFlag f = true → isFlag (f +:+ x) = true.
Proof. intros Hf. by destruct (isFlag_dash f Hf) as (c & r & ->). Qed.

Lemma formatValue_assignment f v :
  isFlag f = true → hasByte f "=" = false →
  hasByte v "=" = false → String.eqb (strings.Trim v " ") "" = false →
  formatValue (f +:+ "=" +:+ v) = [f; v].
Proof.
  intros Hf Hfeq Hveq Hblank. unfold formatValue.
  rewrite (isFlag_append f _ Hf).
  change ("=" +:+ v) with (String "=" v).
  rewrite Split_app_sep, (Split_no_sep v) by done.
  destruct (isFlag_dash f Hf) as (c & r & ->).
  cbn [List.filter]. by rewrite Trim_dash_nonempty, Hblank.
Qed.

(** Whatever follows a flag-shaped value, the command selection is the same,
    as long as that value is not the one taken as the command name. *)
Lemma selectCommand_flag_tail (registry : Registry) (l1 : list string) :
  is_Some (registry !! "") ∨ l1 ≠ [] →
  ∃ n p, ∀ t l2, isFlag t = true →
    selectCommand registry (l1 ++ t :: l2) = (n, (p ++ t :: l2)%list).
Proof.
  intros Hroot. unfold selectCommand, isRootCommand.
  destruct l1 as [|c l1].
  - destruct Hroot as [[root Hroot]|]; [|done].
    rewrite Hroot. exists "", []. intros t l2 Ht. cbn [app]. by rewrite Ht.
  - cbn [app]. destruct (registry !! "") as [root|].
    + destruct (isFlag c); [by exists "", (c :: l1)|].
      destruct (_ && _); [by exists "", (c :: l1)|by exists c, l1].
    + by exists c, l1.
Qed.

(** [Parse] depends on the values left after the command selection only
    through their normalized stream. *)
Lemma Parse_same_stream (registry : Registry) values values' n rest rest' :
  selectCommand registry values = (n, rest) →
  selectCommand registry values' = (n, rest') →
  formatCommandValues rest = formatCommandValues rest' →
  Parse registry values = Parse registry values'.
Proof. intros Hs Hs' Hf. unfold Parse. by rewrite Hs, Hs', Hf. Qed.

(** X6. Values that are not flag-shaped pass the normalization unchanged, with
    every [=] they hold. *)
Theorem positional_values_are_not_split (values : list string) :
  Forall (fun t => isFlag t = false) values →
  formatCommandValues values = values.
Proof.
  unfold formatCommandValues, formatValue.
  induction 1 as [|t values Ht _ IH]; [done|].
  cbn [flat_map]. by rewrite Ht, IH.
Qed.

Lemma positional_values_are_not_split_witness :
  formatCommandValues ["a=b"; ""; "x"] = ["a=b"; ""; "x"].
Proof.
  apply (positional_values_are_not_split ["a=b"; ""; "x"]).
  repeat constructor.
Defined.

(** X7. The spelling [flag=value] is the spelling [flag value]: when the value
    is not blank and neither part holds a further [=], [Parse] gives the
    same outcome for both, at every place that is not taken as the command
    name. *)
Theorem flag_assignment_syntax (registry : Registry) (l1 l2 : list string)
    (f v : string) :
  isFlag f = true → hasByte f "=" = false →
  hasByte v "=" = false → String.eqb (strings.Trim v " ") "" = false →
  is_Some (registry !! "") ∨ l1 ≠ [] →
  Parse registry (l1 ++ (f +:+ "=" +:+ v) :: l2)
  = Parse registry (l1 ++ f :: v :: l2).
Proof.
  intros Hf Hfeq Hveq Hblank Hroot.
  destruct (selectCommand_flag_tail registry l1 Hroot) as (n & p & Hsel).
  apply (Parse_same_stream registry _ _ n
           (p ++ (f +:+ "=" +:+ v) :: l2)%list (p ++ f :: v :: l2)%list).
  - apply Hsel. by apply isFlag_append.
  - by apply Hsel.
  - unfold formatCommandValues. rewrite !flat_map_app. cbn [flat_map].
    rewrite (formatValue_assignment f v), (formatValue_no_eq f),
      (formatValue_unsplit v) by done.
    done.
Qed.

Lemma flag_assignment_syntax_witness :
  Parse scenarioA ["info"; "student"; "--output=./opt/dir"; "-v"]
  = Parse scenarioA ["info"; "student"; "--output"; "./opt/dir"; "-v"].
Proof.
  apply (flag_assignment_syntax scenarioA ["info"; "student"] ["-v"]
           "--output" "./opt/dir"); try reflexivity.
  right. discriminate.
Defined.

(** ** What the builder adds *)

Lemma AddArg_fresh c name defaultValue :
  CommandConfig.Args c !! argKey name = None →
  AddArg c name defaultValue
  = (CommandConfig.setArgNames
       (CommandConfig.setArgs c
          (<[argKey name
             := ArgCommand.mk (argKey name) (isVariadicArgument (removeWhitespaces name)).1
                  defaultValue "" ∅]> (CommandConfig.Args c)))
       (CommandConfig.ArgNames c ++ [argKey name]),
     argKey name, false).
Proof.
  unfold AddArg, argKey. rewrite (trimWhitespaces_empty_cutset defaultValue).
  destruct (isVariadicArgument (removeWhitespaces name)) as [[|] argName];
    intros ->; reflexivity.
Qed.

Lemma substring_first_byte s :
  String.substring 0 1 s = match s with "" => "" | String c _ => String c "" end.
Proof. destruct s as [|c r]; [done|]. cbn. by destruct r. Qed.

Lemma AddFlag_fresh c name shortName isBool defaultValue :
  CommandConfig.Flags c !! flagKey name isBool = None →
  AddFlag c name shortName isBool defaultValue
  = (withFlag c (newFlag name shortName isBool defaultValue), flagKey name isBool, false).
Proof.
  unfold AddFlag, withFlag, newFlag, flagKey.
  rewrite (trimWhitespaces_empty_cutset defaultValue), !substring_first_byte.
  destruct isBool; cbn [andb]; [destruct (strings.HasPrefix name "no-")|];
    cbn iota beta; intros ->;
    destruct (removeWhitespaces shortName) as [|b r]; reflexivity.
Qed.

(** ** The builder keeps the tables consistent *)

Lemma newFlag_short_name name shortName isBool defaultValue :
  let d := newFlag name shortName isBool defaultValue in
  FlagCommand.Name d = flagKey name isBool
  ∧ ((0 <? strings.len (FlagCommand.ShortName d))%nat = true →
     strings.len (FlagCommand.ShortName d) = 1 ∧ FlagCommand.IsInverted d = false).
Proof.
  unfold newFlag.
  cbn [FlagCommand.Name FlagCommand.ShortName FlagCommand.IsInverted].
  split; [done|]. rewrite substring_first_byte.
  destruct (isBool && strings.HasPrefix name "no-"); [done|].
  by destruct (removeWhitespaces shortName).
Qed.

Lemma withFlag_consistent c d :
  CommandConfig.Flags c !! FlagCommand.Name d = None →
  ((0 <? strings.len (FlagCommand.ShortName d))%nat = true →
   strings.len (FlagCommand.ShortName d) = 1 ∧ FlagCommand.IsInverted d = false) →
  flagsConsistent c → flagsConsistent (withFlag c d).
Proof.
  intros Hfresh Hshort [Hnames Halias].
  assert (map_Forall (fun s l =>
            strings.len s = 1
            ∧ (FlagCommand.IsInverted <$>
                 <[FlagCommand.Name d := d]> (CommandConfig.Flags c) !! l) = Some false)
            (CommandConfig.flagsShort c)) as Hold.
  { intros s l Hs. destruct (Halias s l Hs) as [Hlen Hl]. split; [done|].
    rewrite lookup_insert_ne; [done|]. intros <-. rewrite Hfresh in Hl.
    discriminate Hl. }
  unfold withFlag, flagsConsistent.
  cbn [CommandConfig.Flags CommandConfig.flagsShort].
  split; [by apply map_Forall_insert_2|].
  destruct (0 <? strings.len (FlagCommand.ShortName d))%nat; [|exact Hold].
  destruct (Hshort eq_refl) as [Hlen Hinv].
  apply map_Forall_insert_2; [|exact Hold]. split; [done|].
  rewrite lookup_insert_eq. cbn. by rewrite Hinv.
Qed.

Lemma AddFlag_consistent c name shortName isBool defaultValue :
  argsConsistent c → flagsConsistent c →
  argsConsistent (AddFlag c name shortName isBool defaultValue).1.1
  ∧ flagsConsistent (AddFlag c name shortName isBool defaultValue).1.1.
Proof.
  intros Hargs Hflags.
  destruct (CommandConfig.Flags c !! flagKey name isBool) as [d|] eqn:Hk.
  - by rewrite (AddFlag_registered _ _ _ _ _ _ Hk).
  - rewrite (AddFlag_fresh _ _ _ _ _ Hk). cbn [fst]. split; [done|].
    destruct (newFlag_short_name name shortName isBool defaultValue) as [Hname Hshort].
    apply withFlag_consistent; [by rewrite Hname|done|done].
Qed.

Lemma AddArg_consistent c name defaultValue :
  argsConsistent c → flagsConsistent c →
  argsConsistent (AddArg c name defaultValue).1.1
  ∧ flagsConsistent (AddArg c name defaultValue).1.1.
Proof.
  intros Hargs Hflags.
  destruct (CommandConfig.Args c !! argKey name) as [d|] eqn:Hk.
  - by rewrite (AddArg_registered _ _ _ _ Hk).
  - rewrite (AddArg_fresh _ _ _ Hk). cbn [fst]. split; [|done].
    destruct Hargs as (Hnodup & Hdom & Hnames).
    assert (argKey name ∉ CommandConfig.ArgNames c) as Hnotin.
    { intros Hin. apply (not_elem_of_dom_2 _ _ Hk). rewrite Hdom. set_solver. }
    split; [|split]; cbn.
    + apply NoDup_app. split; [done|]. split; [|apply NoDup_singleton].
      intros x Hx ->%list_elem_of_singleton. done.
    + rewrite dom_insert_L, list_to_set_app_L, Hdom. set_solver.
    + by apply map_Forall_insert_2.
Qed.

Lemma alter_args_consistent c k validVals :
  argsConsistent c →
  argsConsistent (CommandConfig.setArgs c
                    (alter (fun d => ArgCommand.SetValidVals d validVals) k
                       (CommandConfig.Args c))).
Proof.
  intros (Hnodup & Hdom & Hnames). split; [done|]. split; cbn.
  - by rewrite dom_alter_L.
  - intros k' d'. destruct (decide (k = k')) as [<-|Hne].
    + rewrite lookup_alter_eq.
      destruct (CommandConfig.Args c !! k) as [d|] eqn:Hd; [|done].
      intros [= <-]. exact (Hnames k d Hd).
    + rewrite lookup_alter_ne by done. apply Hnames.
Qed.

Lemma alter_flags_consistent c k validVals :
  flagsConsistent c →
  flagsConsistent (CommandConfig.setFlags c
                     (alter (fun d => FlagCommand.SetValidVals d validVals) k
                        (CommandConfig.Flags c))).
Proof.
  intros [Hnames Halias]. split; cbn.
  - intros k' d'. destruct (decide (k = k')) as [<-|Hne].
    + rewrite lookup_alter_eq.
      destruct (CommandConfig.Flags c !! k) as [d|] eqn:Hd; [|done].
      intros [= <-]. exact (Hnames k d Hd).
    + rewrite lookup_alter_ne by done. apply Hnames.
  - intros s l Hs. destruct (Halias s l Hs) as [Hlen Hl]. split; [done|].
    destruct (decide (k = l)) as [<-|Hne].
    + rewrite lookup_alter_eq. by destruct (CommandConfig.Flags c !! k).
    + by rewrite lookup_alter_ne.
Qed.

(** X10. The empty command is consistent, and [AddArg], [AddArgWithValid],
    [AddFlag] and [AddFlagWithValid] keep a command consistent: argument
    names stay unique and in step with the table of arguments, every
    definition stays under its own name, and every short alias stays one
    byte long and bound to a registered flag that is not inverted. *)
Theorem builder_keeps_consistency (c : CommandConfig.t) :
  argsConsistent c → flagsConsistent c →
  ∀ name shortName isBool defaultValue validVals,
    let consistent c := argsConsistent c ∧ flagsConsistent c in
    consistent (CommandConfig.mk name ∅ ∅ ∅ [])
    ∧ consistent (AddArg c name defaultValue).1.1
    ∧ consistent (AddArgWithValid c name defaultValue validVals).1.1
    ∧ consistent (AddFlag c name shortName isBool defaultValue).1.1
    ∧ consistent (AddFlagWithValid c name shortName isBool defaultValue validVals).1.1.
Proof.
  intros Hargs Hflags name shortName isBool defaultValue validVals. cbn zeta.
  pose proof (AddArg_consistent c name defaultValue Hargs Hflags) as [Ha1 Ha2].
  pose proof (AddFlag_consistent c name shortName isBool defaultValue Hargs Hflags)
    as [Hf1 Hf2].
  split; [|split; [done|split; [|split; [done|]]]].
  - split; [split; [constructor|split; [done|apply map_Forall_empty]]|].
    split; apply map_Forall_empty.
  - unfold AddArgWithValid. destruct (AddArg c name defaultValue) as [[c1 a] existed].
    split; [by apply alter_args_consistent|done].
  - unfold AddFlagWithValid.
    destruct (AddFlag c name shortName isBool defaultValue) as [[c1 f] existed].
    split; [done|by apply alter_flags_consistent].
Qed.

Lemma builder_keeps_consistency_witness :
  argsConsistent (AddArg infoCommand "target..." "").1.1
  ∧ flagsConsistent (AddFlag infoCommand "force" "f" true "").1.1.
Proof.
  assert (argsConsistent infoCommand) as Ha.
  { apply (bool_decide_unpack _). vm_compute. exact I. }
  assert (flagsConsistent infoCommand) as Hf.
  { apply (bool_decide_unpack _). vm_compute. exact I. }
  pose proof (builder_keeps_consistency infoCommand Ha Hf "target..." "f" true "" [])
    as (_ & [H1 _] & _).
  pose proof (builder_keeps_consistency infoCommand Ha Hf "force" "f" true "" [])
    as (_ & _ & _ & [_ H2] & _).
  exact (conj H1 H2).
Defined.

(** X8. [AddArg] files the argument under its key (the name without spaces and
    without the variadic suffix): a key already there keeps its definition
    and is reported as registered; a new key gets a definition with the
    default value as given and no valid-value set, and goes to the end of
    the list of names. Nothing else changes, and a second call with the same
    name finds the argument registered, whatever default it brings. *)
Theorem AddArg_once (c : CommandConfig.t) (name defaultValue defaultValue' : string) :
  let '(c', a, existed) := AddArg c name defaultValue in
  a = argKey name
  ∧ existed = bool_decide (is_Some (CommandConfig.Args c !! a))
  ∧ CommandConfig.Args c' !! a
    = Some (default (ArgCommand.mk a (isVariadicArgument (removeWhitespaces name)).1
                       defaultValue "" ∅)
              (CommandConfig.Args c !! a))
  ∧ delete a (CommandConfig.Args c') = delete a (CommandConfig.Args c)
  ∧ CommandConfig.ArgNames c'
    = (CommandConfig.ArgNames c ++ if existed then [] else [a])%list
  ∧ CommandConfig.Flags c' = CommandConfig.Flags c
  ∧ CommandConfig.flagsShort c' = CommandConfig.flagsShort c
  ∧ CommandConfig.Name c' = CommandConfig.Name c
  ∧ AddArg c' name defaultValue' = (c', a, true).
Proof.
  destruct (CommandConfig.Args c !! argKey name) as [d|] eqn:Hk.
  - rewrite (AddArg_registered _ _ _ _ Hk), Hk.
    rewrite bool_decide_eq_true_2 by eauto. rewrite app_nil_r.
    repeat split; try done. by apply (AddArg_registered _ _ _ d).
  - rewrite (AddArg_fresh _ _ _ Hk), Hk.
    rewrite bool_decide_eq_false_2 by (by intros [? ?]).
    cbn [CommandConfig.Args CommandConfig.setArgs CommandConfig.setArgNames
         CommandConfig.ArgNames CommandConfig.Flags CommandConfig.flagsShort
         CommandConfig.Name].
    rewrite lookup_insert_eq, delete_insert_eq, delete_id by done.
    repeat split; try done.
    eapply AddArg_registered. cbn. apply lookup_insert_eq.
Qed.

(** X9. [AddFlag] files the flag under its key: a key already there keeps its
    definition and is reported as registered; a new key gets the definition
    of a new flag, with its short name, if any, bound to the key in the
    alias table. Arguments are not touched, and a second call with the same
    name finds the flag registered. *)
Theorem AddFlag_once (c : CommandConfig.t) (name shortName shortName' : string)
    (isBool : bool) (defaultValue defaultValue' : string) :
  let '(c', f, existed) := AddFlag c name shortName isBool defaultValue in
  let d := newFlag name shortName isBool defaultValue in
  f = flagKey name isBool
  ∧ existed = bool_decide (is_Some (CommandConfig.Flags c !! f))
  ∧ CommandConfig.Flags c' !! f = Some (default d (CommandConfig.Flags c !! f))
  ∧ delete f (CommandConfig.Flags c') = delete f (CommandConfig.Flags c)
  ∧ CommandConfig.flagsShort c'
    = (if existed || (strings.len (FlagCommand.ShortName d) =? 0)%nat
       then CommandConfig.flagsShort c
       else <[FlagCommand.ShortName d := f]> (CommandConfig.flagsShort c))
  ∧ CommandConfig.Args c' = CommandConfig.Args c
  ∧ CommandConfig.ArgNames c' = CommandConfig.ArgNames c
  ∧ CommandConfig.Name c' = CommandConfig.Name c
  ∧ AddFlag c' name shortName' isBool defaultValue' = (c', f, true).
Proof.
  destruct (CommandConfig.Flags c !! flagKey name isBool) as [d0|] eqn:Hk.
  - rewrite (AddFlag_registered _ _ _ _ _ _ Hk). cbn zeta. rewrite Hk.
    rewrite bool_decide_eq_true_2 by eauto.
    repeat split; try done. by apply (AddFlag_registered _ _ _ _ _ d0).
  - rewrite (AddFlag_fresh _ _ _ _ _ Hk). cbn zeta. rewrite Hk.
    rewrite bool_decide_eq_false_2 by (by intros [? ?]).
    destruct (newFlag_short_name name shortName isBool defaultValue) as [Hname _].
    unfold withFlag.
    cbn [CommandConfig.Args CommandConfig.ArgNames CommandConfig.Flags
         CommandConfig.flagsShort CommandConfig.Name orb].
    rewrite Hname, lookup_insert_eq, delete_insert_eq, delete_id by done.
    repeat split; try done.
    + by destruct (strings.len _).
    + eapply AddFlag_registered. cbn. apply lookup_insert_eq.
Qed.

(** ** Results of Parse *)

Lemma storeDefaults_empty c name :
  storeDefaults c (CommandParsed.mk name ∅ ∅)
  = CommandParsed.mk name (FlagCommand.StoreDefault <$> CommandConfig.Flags c)
      (ArgCommand.StoreDefault <$> CommandConfig.Args c).
Proof.
  unfold storeDefaults. cbn. f_equal; apply map_eq; intros k.
  - by rewrite defaultFlags_lookup, lookup_empty, lookup_fmap.
  - by rewrite defaultArgs_lookup, lookup_empty, lookup_fmap.
Qed.

(** X11. When no value is left after the command selection (no value at all with
    a registered root command, or only the name of a registered command),
    [Parse] succeeds and the result is the table of defaults: one entry per
    declared flag and argument, each with its default value. *)
Theorem no_values_all_defaults (registry : Registry) (values : list string)
    (n : string) (commandConfig : CommandConfig.t) :
  selectCommand registry values = (n, []) →
  registry !! n = Some commandConfig →
  Parse registry values
  = Returns
      (Some (CommandParsed.mk (CommandConfig.Name commandConfig)
               (FlagCommand.StoreDefault <$> CommandConfig.Flags commandConfig)
               (ArgCommand.StoreDefault <$> CommandConfig.Args commandConfig)))
      None.
Proof.
  intros Hsel Hreg. unfold Parse. rewrite Hsel. cbn [formatCommandValues flat_map].
  cbn [firstUnsupported List.find]. rewrite Hreg. cbn [resolve].
  by rewrite storeDefaults_empty.
Qed.

Lemma no_values_all_defaults_witness :
  Parse scenarioA ["info"]
  = Returns
      (Some (CommandParsed.mk (CommandConfig.Name infoCommand)
               (FlagCommand.StoreDefault <$> CommandConfig.Flags infoCommand)
               (ArgCommand.StoreDefault <$> CommandConfig.Args infoCommand)))
      None.
Proof.
  apply (no_values_all_defaults scenarioA ["info"] "info" infoCommand);
    vm_compute; reflexivity.
Defined.

Lemma lookupFlag_registered c value flag :
  lookupFlag c value = Continue flag →
  ∃ k, CommandConfig.Flags c !! k = Some flag.
Proof.
  unfold lookupFlag. destruct (isShortFlag value).
  - destruct (CommandConfig.flagsShort c !! _) as [l|]; [|done].
    destruct (CommandConfig.Flags c !! l) as [d|] eqn:Hl; [|done].
    intros [= <-]. eauto.
  - destruct (isInvertedFlag value) as [[|] flagName];
      destruct (CommandConfig.Flags c !! flagName) as [d|] eqn:Hd; try done.
    + intros [= <-]. eauto.
    + destruct (FlagCommand.IsInverted d); [done|]. intros [= <-]. eauto.
Qed.

Lemma assignArg_Abort_justified c names index value store e :
  assignArg c names index value store = Abort e →
  ∃ k d, In k names ∧ CommandConfig.Args c !! k = Some d
         ∧ e = ErrorUnsupportedValue (ArgCommand.Name d) value
         ∧ ArgCommand.Validate d value = false.
Proof.
  revert index store. induction names as [|argName names IH]; intros index store; [done|].
  cbn [assignArg]. destruct (CommandConfig.Args c !! argName) as [varg|] eqn:Hvarg; [|done].
  destruct (ArgCommand.Validate varg value) eqn:Hval; cbn [negb].
  - intros Hrec.
    assert (∃ index' store', assignArg c names index' value store' = Abort e)
      as (index' & store' & Hrec').
    { destruct (CommandParsed.Args store !! ArgCommand.Name varg) as [arg|].
      - destruct (strings.len (Arg.Value arg) =? 0)%nat; [done|]. eauto.
      - cbn in Hrec. done. }
    destruct (IH _ _ Hrec') as (k & d & Hin & Hk & He & Hv).
    exists k, d. split; [by right|done].
  - intros [= <-]. exists argName, varg. split; [by left|done].
Qed.

Lemma abortJustified_cons c value stream e :
  abortJustified c stream e → abortJustified c (value :: stream) e.
Proof.
  destruct e as [n|t|t|name v]; cbn; try done.
  - intros (Hin & ?). split; [by right|done].
  - intros (Hin & ?). split; [by right|done].
Qed.

Lemma resolve_Abort_justified c stream store e :
  resolve c stream store = Abort e → abortJustified c stream e.
Proof.
  revert store.
  induction stream as [|value rest IH1 IH2] using tokens_ind; intros store; [done|].
  cbn [resolve]. destruct (strings.len value =? 0)%nat eqn:Hlen; [done|].
  destruct (isFlag value) eqn:Hflag.
  - destruct (lookupFlag c value) as [flag|e'|] eqn:Hlook; [|cbn [bind]..|done].
    + cbn [bind]. destruct (lookupFlag_registered c value flag Hlook) as [k Hk].
      destruct (FlagCommand.IsBoolean flag) eqn:Hbool.
      * destruct (FlagCommand.IsInverted flag); intros H%IH1;
          by apply abortJustified_cons.
      * destruct rest as [|next rest']; [intros H%IH1; by apply abortJustified_cons|].
        destruct (negb (strings.len next =? 0)%nat && negb (isFlag next)) eqn:Hpos;
          [|intros H%IH1; by apply abortJustified_cons].
        destruct (FlagCommand.Validate flag next) eqn:Hval; cbn [negb].
        -- intros H. apply (IH2 next rest' eq_refl) in H.
           by do 2 apply abortJustified_cons.
        -- intros [= <-]. cbn. split; [right; by left|]. split; [exact Hpos|].
           left. exists k, flag. done.
    + pose proof (lookupFlag_Abort c value e' Hlook) as ->.
      intros [= <-]. cbn. split; [by left|done].
  - destruct (assignArg c (CommandConfig.ArgNames c) 0 value store) as [store1|e'|] eqn:Ha;
      [|cbn [bind]..|done].
    + cbn [bind]. intros H%IH1. by apply abortJustified_cons.
    + apply assignArg_Abort_justified in Ha as (k & d & Hin & Hk & -> & Hv).
      intros [= <-]. cbn. split; [by left|]. split.
      { unfold positional. by rewrite Hlen, Hflag. }
      right. exists k, d. done.
Qed.

(** X12. Every error of [Parse] is justified by the values and the registry.
    Unsupported-Flag names the first flag-shaped part of the stream with an
    unsupported shape. Unknown-Command carries the selected name, which is
    not registered, and the stream holds no unsupported flag. Unknown-Flag
    names a flag-shaped value of the stream, of a supported shape, that the
    tables of the selected command do not resolve. Unsupported-Value names a
    positional value of the stream and a non-boolean flag or a listed
    argument of the selected command whose valid-value set rejects it. *)
Theorem Parse_errors_are_justified (registry : Registry) (values : list string)
    (e : Error) :
  Parse registry values = Returns None (Some e) →
  let n := (selectCommand registry values).1 in
  let stream := formatCommandValues (selectCommand registry values).2 in
  match e with
  | ErrorUnsupportedFlag t =>
      firstUnsupported stream = Some t ∧ In t stream
      ∧ isFlag t = true ∧ isUnsupportedFlag t = true
  | ErrorUnknownCommand name =>
      name = n ∧ registry !! n = None ∧ firstUnsupported stream = None
  | _ =>
      ∃ c, registry !! n = Some c ∧ firstUnsupported stream = None
           ∧ abortJustified c stream e
           ∧ ∀ t, e = ErrorUnknownFlag t → isUnsupportedFlag t = false
  end.
Proof.
  unfold Parse. destruct (selectCommand registry values) as [n rest]. cbn [fst snd].
  destruct (firstUnsupported (formatCommandValues rest)) as [t|] eqn:Hscan.
  - intros [= <-]. split; [done|].
    apply List.find_some in Hscan as [Hin [? ?]%andb_true_iff]. done.
  - destruct (registry !! n) as [c|] eqn:Hreg; [|by intros [= <-]].
    destruct (resolve c _ _) as [store|e'|] eqn:Hres; [done| |done].
    intros [= ->]. apply resolve_Abort_justified in Hres.
    assert (∀ t, e = ErrorUnknownFlag t → isUnsupportedFlag t = false) as Hshape.
    { intros t ->. destruct Hres as (Hin & Hflag & _).
      pose proof (List.find_none _ _ Hscan t Hin) as Hnone. cbn in Hnone.
      by rewrite Hflag in Hnone. }
    destruct e; try done; exists c; done.
Qed.

Lemma Parse_errors_are_justified_witness :
  ∃ c, scenarioA !! "info" = Some c
       ∧ firstUnsupported ["-d"; "./x"] = None
       ∧ abortJustified c ["-d"; "./x"] (ErrorUnknownFlag "-d")
       ∧ ∀ t, ErrorUnknownFlag "-d" = ErrorUnknownFlag t → isUnsupportedFlag t = false.
Proof.
  apply (Parse_errors_are_justified scenarioA ["info"; "-d"; "./x"]
           (ErrorUnknownFlag "-d")).
  vm_compute. reflexivity.
Defined.

(** ** What the pass over the values stores *)

Section Stored.

Variable c : CommandConfig.t.
Variable tok : string → Prop.
Hypothesis args_consistent : argsConsistent c.
Hypothesis flags_consistent : flagsConsistent c.

Lemma lookupFlag_keyed value flag :
  lookupFlag c value = Continue flag →
  CommandConfig.Flags c !! FlagCommand.Name flag = Some flag.
Proof.
  intros [k Hk]%lookupFlag_registered.
  destruct flags_consistent as [Hnames _]. by rewrite (Hnames k flag Hk).
Qed.

Lemma positional_nonempty v : positional v = true → v ≠ "".
Proof. by intros H ->. Qed.

Lemma storeFlag_sound store flag v :
  CommandConfig.Flags c !! FlagCommand.Name flag = Some flag →
  (if FlagCommand.IsBoolean flag
   then v = (if FlagCommand.IsInverted flag then "false" else "true")
   else tok v ∧ positional v = true ∧ FlagCommand.Validate flag v = true) →
  map_Forall (flagEntrySound c tok) (CommandParsed.Flags store) →
  map_Forall (flagEntrySound c tok) (CommandParsed.Flags (storeFlag store flag v)).
Proof.
  intros Hflag Hv Hstore. unfold storeFlag. cbn.
  apply map_Forall_insert_2; [|done]. exists flag. done.
Qed.

Lemma assignArg_sound names index value store store' :
  tok value → positional value = true →
  map_Forall (argEntrySound c tok) (CommandParsed.Args store) →
  assignArg c names index value store = Continue store' →
  map_Forall (argEntrySound c tok) (CommandParsed.Args store')
  ∧ CommandParsed.Flags store' = CommandParsed.Flags store.
Proof.
  intros Htok Hpos. revert index store.
  induction names as [|argName names IH]; intros index store Hstore.
  { by intros [= <-]. }
  cbn [assignArg].
  destruct (CommandConfig.Args c !! argName) as [varg|] eqn:Hvarg; [|done].
  destruct args_consistent as (_ & _ & Hnames).
  pose proof (Hnames argName varg Hvarg) as Hname. cbn in Hname.
  destruct (ArgCommand.Validate varg value) eqn:Hval; [|done]. cbn [negb].
  rewrite Hname.
  destruct (CommandParsed.Args store !! argName) as [arg|] eqn:Harg.
  - destruct (Hstore argName arg Harg) as (d & Hd & Ha1 & Ha2 & Ha3 & Ha4).
    rewrite Hvarg in Hd. injection Hd as <-.
    destruct (strings.len (Arg.Value arg) =? 0)%nat eqn:Hlen.
    { destruct (Arg.Value arg); [done|discriminate]. }
    intros Hrec. apply IH in Hrec as [Hs' Hf'].
    + split; [done|]. rewrite Hf'. by destruct (_ && _).
    + destruct ((index =? _)%nat && Arg.IsVariadic arg) eqn:Hlast; [|done].
      apply andb_true_iff in Hlast as [_ Hvar]. cbn.
      apply map_Forall_insert_2; [|done].
      exists varg. split; [done|]. split; [done|]. split; [done|]. split.
      * cbn. destruct (Arg.Value arg); [done|discriminate].
      * intros Hnv. rewrite <- Ha2, Hvar in Hnv. discriminate.
  - cbn. intros [= <-]. split; [|done]. cbn.
    rewrite insert_insert_eq. apply map_Forall_insert_2; [|done].
    exists varg. split; [done|]. split; [done|]. split; [done|]. split.
    + cbn. by apply positional_nonempty.
    + done.
Qed.

Lemma resolve_sound stream store store' :
  Forall tok stream →
  map_Forall (flagEntrySound c tok) (CommandParsed.Flags store) →
  map_Forall (argEntrySound c tok) (CommandParsed.Args store) →
  resolve c stream store = Continue store' →
  map_Forall (flagEntrySound c tok) (CommandParsed.Flags store')
  ∧ map_Forall (argEntrySound c tok) (CommandParsed.Args store').
Proof.
  revert store.
  induction stream as [|value rest IH1 IH2] using tokens_ind;
    intros store Htoks HF HA; [by intros [= <-]|].
  apply Forall_cons_1 in Htoks as [Htok Hrest].
  cbn [resolve]. destruct (strings.len value =? 0)%nat eqn:Hlen; [by intros [= <-]|].
  destruct (isFlag value) eqn:Hflag.
  - destruct (lookupFlag c value) as [flag|e|] eqn:Hlook; [|done..]. cbn [bind].
    pose proof (lookupFlag_keyed value flag Hlook) as Hkey.
    destruct (FlagCommand.IsBoolean flag) eqn:Hbool.
    + destruct (FlagCommand.IsInverted flag) eqn:Hinv; apply IH1; try done;
        apply storeFlag_sound; try done; by rewrite Hbool, Hinv.
    + destruct rest as [|next rest']; [by apply IH1|].
      destruct (negb (strings.len next =? 0)%nat && negb (isFlag next)) eqn:Hpos;
        [|by apply IH1].
      destruct (FlagCommand.Validate flag next) eqn:Hval; [|done]. cbn [negb].
      apply Forall_cons_1 in Hrest as [Hnext Hrest'].
      apply (IH2 next rest' eq_refl); try done.
      apply storeFlag_sound; try done. by rewrite Hbool.
  - destruct (assignArg c (CommandConfig.ArgNames c) 0 value store) as [store1|e|] eqn:Ha;
      [|done..].
    cbn [bind]. apply assignArg_sound in Ha as [HA1 HF1]; try done.
    + apply IH1; try done. by rewrite HF1.
    + unfold positional. by rewrite Hlen, Hflag.
Qed.

End Stored.

Lemma Parse_success_stored (registry : Registry) (values : list string) store c :
  Parse registry values = Returns (Some store) None →
  registry !! (selectCommand registry values).1 = Some c →
  argsConsistent c → flagsConsistent c →
  let tok t := In t (formatCommandValues (selectCommand registry values).2) in
  ∃ store0,
    store = storeDefaults c store0
    ∧ map_Forall (flagEntrySound c tok) (CommandParsed.Flags store0)
    ∧ map_Forall (argEntrySound c tok) (CommandParsed.Args store0).
Proof.
  unfold Parse. destruct (selectCommand registry values) as [n rest]. cbn [fst snd].
  destruct (firstUnsupported _); [done|].
  intros Hparse Hreg Ha Hf. rewrite Hreg in Hparse.
  destruct (resolve c _ _) as [store0|e|] eqn:Hres; [|done..].
  injection Hparse as <-. exists store0. split; [done|].
  eapply (resolve_sound c _ Ha Hf); [|..|exact Hres].
  - apply Forall_forall. intros x Hx. by apply list_elem_of_In.
  - apply map_Forall_empty.
  - apply map_Forall_empty.
Qed.

(** X13. On a consistent command a successful [Parse] returns exactly the
    declared flags and arguments, no more and no fewer, each entry under its
    own name and with the kind (boolean, variadic) of its declaration. *)
Theorem Parse_result_keys (registry : Registry) (values : list string) store c :
  Parse registry values = Returns (Some store) None →
  registry !! (selectCommand registry values).1 = Some c →
  argsConsistent c → flagsConsistent c →
  dom (CommandParsed.Flags store) = dom (CommandConfig.Flags c)
  ∧ dom (CommandParsed.Args store) = dom (CommandConfig.Args c)
  ∧ (∀ k fl, CommandParsed.Flags store !! k = Some fl →
       Flag.Name fl = k
       ∧ (FlagCommand.IsBoolean <$> CommandConfig.Flags c !! k) = Some (Flag.IsBoolean fl))
  ∧ (∀ k a, CommandParsed.Args store !! k = Some a →
       Arg.Name a = k
       ∧ (ArgCommand.IsVariadic <$> CommandConfig.Args c !! k) = Some (Arg.IsVariadic a)).
Proof.
  intros Hparse Hreg Ha Hf.
  destruct (Parse_success_stored registry values store c Hparse Hreg Ha Hf)
    as (store0 & -> & HF & HA).
  destruct Ha as (_ & _ & Hanames). destruct Hf as (Hfnames & _).
  unfold storeDefaults. cbn [CommandParsed.Flags CommandParsed.Args].
  split; [|split; [|split]].
  - apply set_eq. intros k. rewrite !elem_of_dom, defaultFlags_lookup.
    destruct (CommandParsed.Flags store0 !! k) as [fl|] eqn:Hk.
    + destruct (HF k fl Hk) as (d & Hd & _). rewrite Hd. split; eauto.
    + by rewrite <- !not_eq_None_Some, fmap_None.
  - apply set_eq. intros k. rewrite !elem_of_dom, defaultArgs_lookup.
    destruct (CommandParsed.Args store0 !! k) as [a|] eqn:Hk.
    + destruct (HA k a Hk) as (d & Hd & _). rewrite Hd. split; eauto.
    + by rewrite <- !not_eq_None_Some, fmap_None.
  - intros k fl. rewrite defaultFlags_lookup.
    destruct (CommandParsed.Flags store0 !! k) as [fl0|] eqn:Hk.
    + intros [= <-]. destruct (HF k fl0 Hk) as (d & Hd & Hn & Hb & _).
      rewrite Hd. cbn. by rewrite Hb.
    + destruct (CommandConfig.Flags c !! k) as [d|] eqn:Hd; [|done].
      intros [= <-]. cbn. split; [|done]. exact (Hfnames k d Hd).
  - intros k a. rewrite defaultArgs_lookup.
    destruct (CommandParsed.Args store0 !! k) as [a0|] eqn:Hk.
    + intros [= <-]. destruct (HA k a0 Hk) as (d & Hd & Hn & Hv & _).
      rewrite Hd. cbn. by rewrite Hv.
    + destruct (CommandConfig.Args c !! k) as [d|] eqn:Hd; [|done].
      intros [= <-]. cbn. split; [|done]. exact (Hanames k d Hd).
Qed.

Lemma scenarioA_consistent : argsConsistent infoCommand ∧ flagsConsistent infoCommand.
Proof. split; apply (bool_decide_unpack _); vm_compute; exact I. Qed.

Lemma Parse_result_keys_witness :
  dom (CommandParsed.Flags (storeOf (Parse scenarioA tokensA)))
  = dom (CommandConfig.Flags infoCommand).
Proof.
  destruct scenarioA_consistent as [Ha Hf].
  refine (proj1 (Parse_result_keys scenarioA tokensA _ infoCommand _ _ Ha Hf));
    vm_compute; reflexivity.
Defined.

(** X14. On a consistent command every value a successful [Parse] returns is
    accounted for. A flag holds its default value, or, for a boolean flag,
    true (false when the flag is inverted), or, for another flag, a
    positional value of the stream that its valid-value set accepts. An
    argument holds its default value or a value that is not empty; for an
    argument that is not variadic that value is a positional value of the
    stream that its valid-value set accepts. *)
Theorem Parse_result_values (registry : Registry) (values : list string) store c :
  Parse registry values = Returns (Some store) None →
  registry !! (selectCommand registry values).1 = Some c →
  argsConsistent c → flagsConsistent c →
  let stream := formatCommandValues (selectCommand registry values).2 in
  (∀ k fl d,
     CommandParsed.Flags store !! k = Some fl →
     CommandConfig.Flags c !! k = Some d →
     Flag.Value fl = FlagCommand.DefaultValue d
     ∨ (if FlagCommand.IsBoolean d
        then Flag.Value fl = (if FlagCommand.IsInverted d then "false" else "true")
        else In (Flag.Value fl) stream ∧ positional (Flag.Value fl) = true
             ∧ FlagCommand.Validate d (Flag.Value fl) = true))
  ∧ (∀ k a d,
       CommandParsed.Args store !! k = Some a →
       CommandConfig.Args c !! k = Some d →
       Arg.Value a = ArgCommand.DefaultValue d
       ∨ (Arg.Value a ≠ ""
          ∧ (ArgCommand.IsVariadic d = false →
             In (Arg.Value a) stream ∧ positional (Arg.Value a) = true
             ∧ ArgCommand.Validate d (Arg.Value a) = true))).
Proof.
  intros Hparse Hreg Ha Hf stream.
  destruct (Parse_success_stored registry values store c Hparse Hreg Ha Hf)
    as (store0 & -> & HF & HA).
  unfold storeDefaults. cbn [CommandParsed.Flags CommandParsed.Args]. split.
  - intros k fl d. rewrite defaultFlags_lookup.
    destruct (CommandParsed.Flags store0 !! k) as [fl0|] eqn:Hk.
    + intros [= <-] Hd. destruct (HF k fl0 Hk) as (d' & Hd' & _ & _ & Hv).
      rewrite Hd in Hd'. injection Hd' as <-. by right.
    + intros Hfl Hd. rewrite Hd in Hfl. injection Hfl as <-. by left.
  - intros k a d. rewrite defaultArgs_lookup.
    destruct (CommandParsed.Args store0 !! k) as [a0|] eqn:Hk.
    + intros [= <-] Hd. destruct (HA k a0 Hk) as (d' & Hd' & _ & _ & Hne & Hv).
      rewrite Hd in Hd'. injection Hd' as <-. by right.
    + intros Hal Hd. rewrite Hd in Hal. injection Hal as <-. by left.
Qed.

Lemma Parse_result_values_witness :
  "./opt/dir" = "./"
  ∨ (In "./opt/dir" (formatCommandValues (selectCommand scenarioA tokensA).2)
     ∧ positional "./opt/dir" = true
     ∧ FlagCommand.Validate (FlagCommand.mk "output" "o" false false "./" "" ∅)
         "./opt/dir" = true).
Proof.
  destruct scenarioA_consistent as [Ha Hf].
  refine (proj1 (Parse_result_values scenarioA tokensA
                   (storeOf (Parse scenarioA tokensA)) infoCommand _ _ Ha Hf)
            "output" (Flag.mk "output" false "./opt/dir")
            (FlagCommand.mk "output" "o" false false "./" "" ∅) _ _);
    vm_compute; reflexivity.
Defined.

(** ** Positional values, slot by slot *)

Section Positional.

Variable c : CommandConfig.t.
Hypothesis args_consistent : argsConsistent c.

(** The slot [p] is declared, accepts [value] and is filled in [store]. *)
Let passes (value : string) (store : CommandParsed.t) (p : string) : Prop :=
  ∃ dp a, CommandConfig.Args c !! p = Some dp
          ∧ ArgCommand.Validate dp value = true
          ∧ CommandParsed.Args store !! p = Some a ∧ Arg.Value a ≠ "".

Lemma arg_keyed p d : CommandConfig.Args c !! p = Some d → ArgCommand.Name d = p.
Proof. destruct args_consistent as (_ & _ & Hnames). apply Hnames. Qed.

Lemma len_nonzero v : v ≠ "" → (strings.len v =? 0)%nat = false.
Proof. by destruct v. Qed.

(** The value goes to the first slot that is not filled. *)
Lemma assignArg_fill pre n post index value store d :
  Forall (passes value store) pre →
  index + length pre < length (CommandConfig.ArgNames c) →
  CommandConfig.Args c !! n = Some d →
  ArgCommand.Validate d value = true →
  CommandParsed.Args store !! n = None →
  assignArg c (pre ++ n :: post) index value store
  = Continue (CommandParsed.setArgs store
                (<[n := Arg.mk n (ArgCommand.IsVariadic d) value]>
                   (CommandParsed.Args store))).
Proof.
  intros Hpre. revert index.
  induction Hpre as [|p pre (dp & a & Hdp & Hval & Ha & Hne) _ IH];
    intros index Hidx Hd Hvald Hnone.
  - cbn [app assignArg]. rewrite Hd, Hvald. cbn [negb].
    rewrite (arg_keyed n d Hd), Hnone. cbn. by rewrite insert_insert_eq.
  - cbn [app assignArg]. rewrite Hdp, Hval. cbn [negb].
    rewrite (arg_keyed p dp Hdp), Ha, (len_nonzero _ Hne).
    cbn [length] in Hidx.
    assert ((index =? length (CommandConfig.ArgNames c) - 1)%nat = false) as ->.
    { apply Nat.eqb_neq. lia. }
    cbn [andb]. apply IH; [lia|done..].
Qed.

(** When every slot is filled, the value is appended to the last slot if
    that slot is variadic, and dropped otherwise. *)
Lemma assignArg_full pre l index value store dl al :
  Forall (passes value store) pre →
  index + length pre = length (CommandConfig.ArgNames c) - 1 →
  CommandConfig.Args c !! l = Some dl →
  ArgCommand.Validate dl value = true →
  CommandParsed.Args store !! l = Some al → Arg.Value al ≠ "" →
  assignArg c (pre ++ [l]) index value store
  = Continue (if Arg.IsVariadic al
              then CommandParsed.setArgs store
                     (<[l := Arg.setValue al (Arg.Value al +:+ "," +:+ value)]>
                        (CommandParsed.Args store))
              else store).
Proof.
  intros Hpre. revert index.
  induction Hpre as [|p pre (dp & a & Hdp & Hval & Ha & Hne) _ IH];
    intros index Hidx Hd Hvald Hal Hnel.
  - cbn [app assignArg]. rewrite Hd, Hvald. cbn [negb].
    rewrite (arg_keyed l dl Hd), Hal, (len_nonzero _ Hnel).
    cbn [length] in Hidx. rewrite Nat.add_0_r in Hidx. rewrite Hidx, Nat.eqb_refl.
    cbn [andb assignArg]. reflexivity.
  - cbn [app assignArg]. rewrite Hdp, Hval. cbn [negb].
    rewrite (arg_keyed p dp Hdp), Ha, (len_nonzero _ Hne).
    cbn [length] in Hidx.
    assert ((index =? length (CommandConfig.ArgNames c) - 1)%nat = false) as ->.
    { apply Nat.eqb_neq. lia. }
    cbn [andb]. apply IH; [lia|done..].
Qed.

(** Positional values are taken one at a time. *)
Lemma resolve_positional_app ts1 ts2 store :
  Forall (fun t => positional t = true) ts1 →
  resolve c (ts1 ++ ts2) store
  = (let* store1 := resolve c ts1 store in resolve c ts2 store1).
Proof.
  intros Hts. revert store. induction Hts as [|t ts1 Ht _ IH]; intros store; [done|].
  unfold positional in Ht. apply andb_true_iff in Ht as [Hlen Hflag].
  apply negb_true_iff in Hlen, Hflag.
  cbn [app resolve]. rewrite Hlen, Hflag.
  destruct (assignArg c (CommandConfig.ArgNames c) 0 t store) as [store1|e|]; [|done..].
  cbn [bind]. apply IH.
Qed.

Lemma resolve_positional_one t store :
  positional t = true →
  resolve c [t] store = assignArg c (CommandConfig.ArgNames c) 0 t store.
Proof.
  unfold positional. intros [Hlen Hflag]%andb_true_iff.
  apply negb_true_iff in Hlen, Hflag. cbn [resolve]. rewrite Hlen, Hflag.
  by destruct (assignArg c _ 0 t store).
Qed.

End Positional.

Lemma listed_is_declared c n :
  argsConsistent c → n ∈ CommandConfig.ArgNames c →
  is_Some (CommandConfig.Args c !! n).
Proof.
  intros (_ & Hdom & _) Hin. apply elem_of_dom. rewrite Hdom. set_solver.
Qed.

(** Under [slotsHold] the slots that hold a value pass. *)
Lemma slotsHold_passes c slots t store (j : nat) :
  argsConsistent c → accepts c t →
  Forall (fun v => v ≠ "") slots →
  slotsHold c slots (CommandParsed.Args store) →
  (j ≤ length slots)%nat →
  Forall (fun p => ∃ dp a, CommandConfig.Args c !! p = Some dp
                          ∧ ArgCommand.Validate dp t = true
                          ∧ CommandParsed.Args store !! p = Some a ∧ Arg.Value a ≠ "")
         (take j (CommandConfig.ArgNames c)).
Proof.
  intros Hc Hacc Hpos Hslots Hj. apply Forall_lookup. intros i p Hp.
  apply lookup_take_Some in Hp as [Hp Hi].
  destruct (listed_is_declared c p Hc (list_elem_of_lookup_2 _ _ _ Hp)) as [dp Hdp].
  destruct (lookup_lt_is_Some_2 slots i ltac:(lia)) as [v Hv].
  exists dp, (Arg.mk p (ArgCommand.IsVariadic dp) v).
  split; [done|]. split; [by apply (Hacc p)|]. split.
  - by rewrite (Hslots i p Hp), Hv, Hdp.
  - cbn. exact (proj1 (Forall_lookup _ _) Hpos i v Hv).
Qed.

Lemma positional_values_nonempty ts :
  Forall (fun t => positional t = true) ts → Forall (fun v => v ≠ "") ts.
Proof. intros H. eapply Forall_impl; [exact H|]. by intros t Ht ->. Qed.

Lemma slotsHold_snoc c slots t n d args :
  argsConsistent c →
  CommandConfig.ArgNames c !! length slots = Some n →
  CommandConfig.Args c !! n = Some d →
  slotsHold c slots args →
  slotsHold c (slots ++ [t]) (<[n := Arg.mk n (ArgCommand.IsVariadic d) t]> args).
Proof.
  intros (Hnodup & _) Hn Hd Hslots i m Hm.
  destruct (decide (i = length slots)) as [->|Hi].
  - rewrite Hn in Hm. injection Hm as <-.
    rewrite lookup_insert_eq, list_lookup_middle by done. by rewrite Hd.
  - rewrite lookup_insert_ne.
    + rewrite (Hslots i m Hm). destruct (decide (i < length slots)).
      * by rewrite lookup_app_l.
      * rewrite !lookup_ge_None_2; [done|rewrite length_app; cbn; lia|lia].
    + intros <-. by apply Hi, (NoDup_lookup _ _ _ n Hnodup).
Qed.

Lemma slotsHold_last c slots v v' n d args :
  argsConsistent c →
  CommandConfig.ArgNames c !! length slots = Some n →
  CommandConfig.Args c !! n = Some d →
  slotsHold c (slots ++ [v]) args →
  slotsHold c (slots ++ [v']) (<[n := Arg.mk n (ArgCommand.IsVariadic d) v']> args).
Proof.
  intros (Hnodup & _) Hn Hd Hslots i m Hm.
  destruct (decide (i = length slots)) as [->|Hi].
  - rewrite Hn in Hm. injection Hm as <-.
    rewrite lookup_insert_eq, list_lookup_middle by done. by rewrite Hd.
  - rewrite lookup_insert_ne.
    + rewrite (Hslots i m Hm). destruct (decide (i < length slots)).
      * by rewrite !lookup_app_l.
      * rewrite !lookup_ge_None_2; [done|rewrite length_app; cbn; lia..].
    + intros <-. by apply Hi, (NoDup_lookup _ _ _ n Hnodup).
Qed.

(** As long as slots are left, each positional value fills the next one. *)
Lemma fill_state c store0 ts :
  argsConsistent c →
  Forall (fun t => positional t = true) ts → Forall (accepts c) ts →
  (length ts ≤ length (CommandConfig.ArgNames c))%nat →
  slotsHold c [] (CommandParsed.Args store0) →
  ∃ store, resolve c ts store0 = Continue store
           ∧ slotsHold c ts (CommandParsed.Args store)
           ∧ CommandParsed.Flags store = CommandParsed.Flags store0.
Proof.
  intros Hc. induction ts as [|t ts IH] using rev_ind; intros Hpos Hacc Hlen Hs0.
  { exists store0. done. }
  apply Forall_app in Hpos as [Hpos Ht]. apply Forall_cons_1 in Ht as [Ht _].
  apply Forall_app in Hacc as [Hacc Hat]. apply Forall_cons_1 in Hat as [Hat _].
  rewrite length_app in Hlen. cbn in Hlen.
  destruct IH as (store & Hres & Hslots & Hflags); [done|done|lia|done|].
  destruct (lookup_lt_is_Some_2 (CommandConfig.ArgNames c) (length ts) ltac:(lia))
    as [n Hn].
  destruct (listed_is_declared c n Hc (list_elem_of_lookup_2 _ _ _ Hn)) as [d Hd].
  rewrite (resolve_positional_app c ts [t] store0 Hpos), Hres. cbn [bind].
  rewrite (resolve_positional_one c t store Ht).
  assert (assignArg c (CommandConfig.ArgNames c) 0 t store
          = Continue (CommandParsed.setArgs store
                        (<[n := Arg.mk n (ArgCommand.IsVariadic d) t]>
                           (CommandParsed.Args store)))) as ->.
  { rewrite <- (take_drop_middle _ _ _ Hn) at 1.
    apply (assignArg_fill c Hc).
    - apply (slotsHold_passes c ts t store (length ts)); try done.
      by apply positional_values_nonempty.
    - rewrite length_take. lia.
    - done.
    - by apply (Hat n).
    - rewrite (Hslots _ n Hn). by rewrite lookup_ge_None_2. }
  eexists. split; [done|]. cbn. split; [|done]. by apply slotsHold_snoc.
Qed.

Lemma append_empty_l s : "" +:+ s = s.
Proof. reflexivity. Qed.

Lemma append_assoc_string a b d : (a +:+ b) +:+ d = a +:+ (b +:+ d).
Proof.
  induction a as [|x a IH]; [by rewrite !append_empty_l|].
  by rewrite !append_cons, IH.
Qed.

Lemma concat_cons2 sep x y l :
  String.concat sep (x :: y :: l) = x +:+ sep +:+ String.concat sep (y :: l).
Proof. reflexivity. Qed.

Lemma concat_snoc sep x l t :
  String.concat sep ((x :: l) ++ [t]) = String.concat sep (x :: l) +:+ sep +:+ t.
Proof.
  revert x. induction l as [|y l IH]; intros x; [done|].
  change ((x :: y :: l) ++ [t])%list with (x :: ((y :: l) ++ [t]))%list.
  change ((y :: l) ++ [t])%list with (y :: (l ++ [t]))%list at 1.
  rewrite concat_cons2.
  change (y :: (l ++ [t]))%list with ((y :: l) ++ [t])%list.
  rewrite IH, concat_cons2. by rewrite !append_assoc_string.
Qed.

Lemma concat_nonempty sep x l : x ≠ "" → String.concat sep (x :: l) ≠ "".
Proof.
  destruct x as [|b x]; [done|]. intros _. destruct l as [|y l]; [done|].
  rewrite concat_cons2, append_cons. done.
Qed.

Lemma rev_cases {A} (l : list A) : l = [] ∨ ∃ init x, l = (init ++ [x])%list.
Proof. destruct l as [|x l _] using rev_ind; eauto. Qed.

(** Once every slot is filled and the last one is variadic, each further
    positional value is appended to it after a comma. *)
Lemma variadic_state c store0 (fixed : list string) first extra init l dl :
  argsConsistent c →
  CommandConfig.ArgNames c = (init ++ [l])%list → length fixed = length init →
  CommandConfig.Args c !! l = Some dl → ArgCommand.IsVariadic dl = true →
  Forall (fun t => positional t = true) (fixed ++ first :: extra) →
  Forall (accepts c) (fixed ++ first :: extra) →
  slotsHold c [] (CommandParsed.Args store0) →
  ∃ store, resolve c (fixed ++ first :: extra) store0 = Continue store
           ∧ slotsHold c (fixed ++ [String.concat "," (first :: extra)])
               (CommandParsed.Args store)
           ∧ CommandParsed.Flags store = CommandParsed.Flags store0.
Proof.
  intros Hc Hnames Hlen Hdl Hvar.
  assert (CommandConfig.ArgNames c !! length fixed = Some l) as Hl.
  { rewrite Hnames, Hlen. by apply list_lookup_middle. }
  induction extra as [|t extra IH] using rev_ind; intros Hpos Hacc Hs0.
  - apply fill_state; try done.
    rewrite Hnames, !length_app. cbn. lia.
  - assert ((fixed ++ first :: extra ++ [t]) = ((fixed ++ first :: extra) ++ [t]))%list
      as Heq by (by rewrite <- app_assoc).
    rewrite Heq in Hpos, Hacc |- *.
    apply Forall_app in Hpos as [Hpos Ht]. apply Forall_cons_1 in Ht as [Ht _].
    apply Forall_app in Hacc as [Hacc Hat]. apply Forall_cons_1 in Hat as [Hat _].
    destruct (IH Hpos Hacc Hs0) as (store & Hres & Hslots & Hflags).
    rewrite (resolve_positional_app c _ [t] store0 Hpos), Hres. cbn [bind].
    rewrite (resolve_positional_one c t store Ht).
    set (J := String.concat "," (first :: extra)) in *.
    assert (Forall (fun v => v ≠ "") (fixed ++ [J])) as Hne.
    { apply Forall_app in Hpos as [Hfixed Hfirst].
      apply Forall_cons_1 in Hfirst as [Hfirst _].
      apply Forall_app. split; [by apply positional_values_nonempty|].
      constructor; [|constructor]. apply concat_nonempty. by intros ->. }
    assert (CommandParsed.Args store !! l = Some (Arg.mk l true J)) as Hal.
    { rewrite (Hslots _ l Hl), list_lookup_middle, Hdl by done. cbn. by rewrite Hvar. }
    assert (assignArg c (CommandConfig.ArgNames c) 0 t store
            = Continue (CommandParsed.setArgs store
                          (<[l := Arg.mk l (ArgCommand.IsVariadic dl) (J +:+ "," +:+ t)]>
                             (CommandParsed.Args store)))) as ->.
    { rewrite Hnames at 1.
      rewrite (assignArg_full c Hc init l 0 t store dl (Arg.mk l true J)); try done.
      - cbn. by rewrite Hvar.
      - rewrite <- (take_app_length init [l]), <- Hnames, <- Hlen.
        apply (slotsHold_passes c (fixed ++ [J]) t store); try done.
        rewrite length_app. lia.
      - rewrite Hnames, length_app. cbn. lia.
      - by apply (Hat l).
      - cbn. apply (proj1 (Forall_lookup _ _) Hne (length fixed)).
        by apply list_lookup_middle. }
    eexists. split; [done|].
    cbn [CommandParsed.Args CommandParsed.Flags CommandParsed.setArgs].
    split; [|done].
    assert (String.concat "," (first :: extra ++ [t]) = J +:+ "," +:+ t) as ->.
    { apply (concat_snoc "," first extra t). }
    by apply (slotsHold_last c fixed J).
Qed.

(** Once every slot is filled and the last one is not variadic, further
    positional values change nothing. *)
Lemma full_state_drop c store (fixed extra : list string) :
  argsConsistent c →
  length fixed = length (CommandConfig.ArgNames c) →
  Forall (fun v => v ≠ "") fixed →
  slotsHold c fixed (CommandParsed.Args store) →
  (∀ l dl, last (CommandConfig.ArgNames c) = Some l →
           CommandConfig.Args c !! l = Some dl → ArgCommand.IsVariadic dl = false) →
  Forall (fun t => positional t = true) extra → Forall (accepts c) extra →
  resolve c extra store = Continue store.
Proof.
  intros Hc Hlen Hne Hslots Hlast Hpos Hacc.
  induction Hpos as [|t extra Ht Hpos IH]; [done|].
  apply Forall_cons_1 in Hacc as [Hat Hacc].
  change (t :: extra) with ([t] ++ extra)%list.
  rewrite (resolve_positional_app c [t] extra store) by (by constructor).
  rewrite (resolve_positional_one c t store Ht).
  assert (assignArg c (CommandConfig.ArgNames c) 0 t store = Continue store) as ->.
  { destruct (rev_cases (CommandConfig.ArgNames c)) as [Hnil|(init & l & Hnames)].
    - by rewrite Hnil.
    - rewrite Hnames, length_app in Hlen. cbn in Hlen.
      assert (CommandConfig.ArgNames c !! length init = Some l) as Hl.
      { rewrite Hnames. by apply list_lookup_middle. }
      destruct (listed_is_declared c l Hc (list_elem_of_lookup_2 _ _ _ Hl)) as [dl Hdl].
      destruct (lookup_lt_is_Some_2 fixed (length init) ltac:(lia)) as [v Hv].
      rewrite Hnames at 1.
      rewrite (assignArg_full c Hc init l 0 t store dl
                 (Arg.mk l (ArgCommand.IsVariadic dl) v)); try done.
      + cbn. rewrite (Hlast l dl); [done| |done]. rewrite Hnames. apply last_snoc.
      + rewrite <- (take_app_length init [l]), <- Hnames.
        apply (slotsHold_passes c fixed t store); try done. lia.
      + rewrite Hnames, length_app. cbn. lia.
      + by apply (Hat l).
      + by rewrite (Hslots _ l Hl), Hv, Hdl.
      + cbn. exact (proj1 (Forall_lookup _ _) Hne _ v Hv). }
  cbn [bind]. by apply IH.
Qed.

Lemma positional_stream ts :
  Forall (fun t => positional t = true) ts →
  formatCommandValues ts = ts ∧ firstUnsupported ts = None.
Proof.
  intros Hpos. unfold formatCommandValues, formatValue, firstUnsupported.
  induction Hpos as [|t ts Ht _ [IH1 IH2]]; [done|].
  unfold positional in Ht. apply andb_true_iff in Ht as [_ Hflag%negb_true_iff].
  cbn [flat_map List.find]. by rewrite Hflag, IH1, IH2.
Qed.

(** From the slots the pass has filled to the result of [Parse]. *)
Lemma Parse_positional (registry : Registry) (values : list string) n ts c store slots :
  selectCommand registry values = (n, ts) →
  registry !! n = Some c → argsConsistent c →
  Forall (fun t => positional t = true) ts →
  resolve c ts (CommandParsed.mk (CommandConfig.Name c) ∅ ∅) = Continue store →
  CommandParsed.Flags store = ∅ →
  slotsHold c slots (CommandParsed.Args store) →
  ∃ result,
    Parse registry values = Returns (Some result) None
    ∧ CommandParsed.Flags result = FlagCommand.StoreDefault <$> CommandConfig.Flags c
    ∧ ∀ i a d,
        CommandConfig.ArgNames c !! i = Some a →
        CommandConfig.Args c !! a = Some d →
        CommandParsed.Args result !! a
        = Some (Arg.mk a (ArgCommand.IsVariadic d)
                  (default (ArgCommand.DefaultValue d) (slots !! i))).
Proof.
  intros Hsel Hreg Hc Hpos Hres Hflags Hslots.
  destruct (positional_stream ts Hpos) as [Hfmt Hscan].
  exists (storeDefaults c store). split; [|split].
  - unfold Parse. by rewrite Hsel, Hfmt, Hscan, Hreg, Hres.
  - cbn. rewrite Hflags. apply map_eq. intros k.
    by rewrite defaultFlags_lookup, lookup_empty, lookup_fmap.
  - intros i a d Ha Hd. cbn. rewrite defaultArgs_lookup, (Hslots i a Ha), Hd.
    destruct (slots !! i); cbn; [done|].
    destruct Hc as (_ & _ & Hnames). unfold ArgCommand.StoreDefault.
    by rewrite (Hnames a d Hd).
Qed.

(** X15. Positional values fill the listed arguments in order. On a consistent
    command, when every value left after the command selection is
    positional and accepted by the declared arguments, and there are no more
    values than listed arguments, [Parse] succeeds: the i-th listed argument
    holds the i-th value, or its default when there is no i-th value, and
    every flag holds its default. *)
Theorem positional_values_fill_in_order (registry : Registry) (values : list string)
    n ts c :
  selectCommand registry values = (n, ts) →
  registry !! n = Some c → argsConsistent c →
  Forall (fun t => positional t = true) ts → Forall (accepts c) ts →
  (length ts ≤ length (CommandConfig.ArgNames c))%nat →
  ∃ result,
    Parse registry values = Returns (Some result) None
    ∧ CommandParsed.Flags result = FlagCommand.StoreDefault <$> CommandConfig.Flags c
    ∧ ∀ i a d,
        CommandConfig.ArgNames c !! i = Some a →
        CommandConfig.Args c !! a = Some d →
        CommandParsed.Args result !! a
        = Some (Arg.mk a (ArgCommand.IsVariadic d)
                  (default (ArgCommand.DefaultValue d) (ts !! i))).
Proof.
  intros Hsel Hreg Hc Hpos Hacc Hlen.
  destruct (fill_state c (CommandParsed.mk (CommandConfig.Name c) ∅ ∅) ts)
    as (store & Hres & Hslots & Hflags); try done.
  by apply (Parse_positional registry values n ts c store ts).
Qed.

(** X16. Variadic accumulation. On a consistent command whose last listed
    argument is variadic, when the values left after the command selection
    are positional and accepted, the values beyond the other arguments are
    stored in the variadic argument joined by commas, in the order given. *)
Theorem variadic_values_are_joined (registry : Registry) (values : list string)
    n c (fixed : list string) first extra init l dl :
  selectCommand registry values = (n, (fixed ++ first :: extra)%list) →
  registry !! n = Some c → argsConsistent c →
  CommandConfig.ArgNames c = (init ++ [l])%list → length fixed = length init →
  CommandConfig.Args c !! l = Some dl → ArgCommand.IsVariadic dl = true →
  Forall (fun t => positional t = true) (fixed ++ first :: extra) →
  Forall (accepts c) (fixed ++ first :: extra) →
  ∃ result,
    Parse registry values = Returns (Some result) None
    ∧ CommandParsed.Args result !! l
      = Some (Arg.mk l true (String.concat "," (first :: extra)))
    ∧ ∀ i a d,
        init !! i = Some a → CommandConfig.Args c !! a = Some d →
        CommandParsed.Args result !! a
        = Some (Arg.mk a (ArgCommand.IsVariadic d)
                  (default (ArgCommand.DefaultValue d) (fixed !! i))).
Proof.
  intros Hsel Hreg Hc Hnames Hlen Hdl Hvar Hpos Hacc.
  destruct (variadic_state c (CommandParsed.mk (CommandConfig.Name c) ∅ ∅)
              fixed first extra init l dl)
    as (store & Hres & Hslots & Hflags); try done.
  destruct (Parse_positional registry values n _ c store _ Hsel Hreg Hc Hpos Hres
              Hflags Hslots) as (result & Hparse & _ & Hargs).
  exists result. split; [done|]. split.
  - rewrite (Hargs (length fixed) l dl); [|by rewrite Hnames, Hlen; apply list_lookup_middle|done].
    rewrite list_lookup_middle by done. cbn. by rewrite Hvar.
  - intros i a d Ha Hd.
    rewrite (Hargs i a d); [|by rewrite Hnames; apply lookup_app_l_Some|done].
    pose proof (lookup_lt_Some _ _ _ Ha) as Hi.
    rewrite lookup_app_l by lia. done.
Qed.

(** X17. Extra positional values are dropped. On a consistent command whose last
    listed argument is not variadic (or that lists no argument), positional
    values beyond the listed arguments change nothing: [Parse] succeeds and
    the i-th listed argument holds the i-th value. *)
Theorem extra_values_are_dropped (registry : Registry) (values : list string)
    n c (fixed extra : list string) :
  selectCommand registry values = (n, (fixed ++ extra)%list) →
  registry !! n = Some c → argsConsistent c →
  length fixed = length (CommandConfig.ArgNames c) →
  (∀ l dl, last (CommandConfig.ArgNames c) = Some l →
           CommandConfig.Args c !! l = Some dl → ArgCommand.IsVariadic dl = false) →
  Forall (fun t => positional t = true) (fixed ++ extra) →
  Forall (accepts c) (fixed ++ extra) →
  ∃ result,
    Parse registry values = Returns (Some result) None
    ∧ ∀ i a d,
        CommandConfig.ArgNames c !! i = Some a →
        CommandConfig.Args c !! a = Some d →
        CommandParsed.Args result !! a
        = Some (Arg.mk a (ArgCommand.IsVariadic d)
                  (default (ArgCommand.DefaultValue d) (fixed !! i))).
Proof.
  intros Hsel Hreg Hc Hlen Hlast Hpos Hacc.
  pose proof Hpos as Hpos'. pose proof Hacc as Hacc'.
  apply Forall_app in Hpos' as [Hpf Hpe]. apply Forall_app in Hacc' as [Haf Hae].
  destruct (fill_state c (CommandParsed.mk (CommandConfig.Name c) ∅ ∅) fixed)
    as (store & Hres & Hslots & Hflags); try done; [lia|].
  assert (resolve c (fixed ++ extra) (CommandParsed.mk (CommandConfig.Name c) ∅ ∅)
          = Continue store) as Hall.
  { rewrite (resolve_positional_app c fixed extra _ Hpf), Hres. cbn [bind].
    apply (full_state_drop c store fixed extra); try done.
    by apply positional_values_nonempty. }
  destruct (Parse_positional registry values n _ c store fixed Hsel Hreg Hc Hpos Hall
              Hflags Hslots) as (result & Hparse & _ & Hargs).
  by exists result.
Qed.

Lemma positional_values_fill_in_order_witness :
  ∃ result,
    Parse scenarioA ["info"; "student"; "manager"] = Returns (Some result) None
    ∧ CommandParsed.Flags result
      = FlagCommand.StoreDefault <$> CommandConfig.Flags infoCommand
    ∧ ∀ i a d,
        CommandConfig.ArgNames infoCommand !! i = Some a →
        CommandConfig.Args infoCommand !! a = Some d →
        CommandParsed.Args result !! a
        = Some (Arg.mk a (ArgCommand.IsVariadic d)
                  (default (ArgCommand.DefaultValue d) (["student"; "manager"] !! i))).
Proof.
  apply (positional_values_fill_in_order scenarioA ["info"; "student"; "manager"]
           "info" ["student"; "manager"] infoCommand).
  - vm_compute. reflexivity.
  - vm_compute. reflexivity.
  - apply (bool_decide_unpack _). vm_compute. exact I.
  - repeat constructor.
  - apply (bool_decide_unpack _). vm_compute. exact I.
  - apply Nat.leb_le. vm_compute. reflexivity.
Defined.

Lemma variadic_values_are_joined_witness :
  ∃ result,
    Parse scenarioA ["info"; "student"; "manager"; "student"; "manager"; "student"]
    = Returns (Some result) None
    ∧ CommandParsed.Args result !! "subjects"
      = Some (Arg.mk "subjects" true "student,manager,student")
    ∧ ∀ i a d,
        ["category"; "username"] !! i = Some a →
        CommandConfig.Args infoCommand !! a = Some d →
        CommandParsed.Args result !! a
        = Some (Arg.mk a (ArgCommand.IsVariadic d)
                  (default (ArgCommand.DefaultValue d) (["student"; "manager"] !! i))).
Proof.
  apply (variadic_values_are_joined scenarioA
           ["info"; "student"; "manager"; "student"; "manager"; "student"]
           "info" infoCommand ["student"; "manager"] "student" ["manager"; "student"]
           ["category"; "username"] "subjects"
           (ArgCommand.mk "subjects" true "" "" ∅)).
  - vm_compute. reflexivity.
  - vm_compute. reflexivity.
  - apply (bool_decide_unpack _). vm_compute. exact I.
  - vm_compute. reflexivity.
  - reflexivity.
  - vm_compute. reflexivity.
  - reflexivity.
  - repeat constructor.
  - apply (bool_decide_unpack _). vm_compute. exact I.
Defined.

Lemma extra_values_are_dropped_witness :
  ∃ result,
    Parse levels ["run"; "here"; "there"] = Returns (Some result) None
    ∧ ∀ i a d,
        CommandConfig.ArgNames runCommand !! i = Some a →
        CommandConfig.Args runCommand !! a = Some d →
        CommandParsed.Args result !! a
        = Some (Arg.mk a (ArgCommand.IsVariadic d)
                  (default (ArgCommand.DefaultValue d) (["here"] !! i))).
Proof.
  apply (extra_values_are_dropped levels ["run"; "here"; "there"] "run" runCommand
           ["here"] ["there"]).
  - vm_compute. reflexivity.
  - vm_compute. reflexivity.
  - apply (bool_decide_unpack _). vm_compute. exact I.
  - vm_compute. reflexivity.
  - intros l dl Hl Hdl. vm_compute in Hl. injection Hl as <-.
    vm_compute in Hdl. injection Hdl as <-. reflexivity.
  - repeat constructor.
  - apply (bool_decide_unpack _). vm_compute. exact I.
Defined.

(** ** Registries made with the builder *)

Lemma consistent_wf c : argsConsistent c → flagsConsistent c → wfConfig c.
Proof.
  intros Ha [_ Hf]. split.
  - apply Forall_forall. intros n Hn. by apply listed_is_declared.
  - intros s l Hs. destruct (Hf s l Hs) as [_ Hl].
    by destruct (CommandConfig.Flags c !! l); eauto.
Qed.

Lemma AddArg_Name c name defaultValue :
  CommandConfig.Name (AddArg c name defaultValue).1.1 = CommandConfig.Name c.
Proof.
  destruct (CommandConfig.Args c !! argKey name) as [d|] eqn:Hk.
  - by rewrite (AddArg_registered _ _ _ _ Hk).
  - by rewrite (AddArg_fresh _ _ _ Hk).
Qed.

Lemma AddFlag_Name c name shortName isBool defaultValue :
  CommandConfig.Name (AddFlag c name shortName isBool defaultValue).1.1
  = CommandConfig.Name c.
Proof.
  destruct (CommandConfig.Flags c !! flagKey name isBool) as [d|] eqn:Hk.
  - by rewrite (AddFlag_registered _ _ _ _ _ _ Hk).
  - by rewrite (AddFlag_fresh _ _ _ _ _ Hk).
Qed.

Lemma withCommand_sound k op registry :
  (∀ k' c, commandSound k' c → commandSound k' (op c).1.1) →
  map_Forall commandSound registry →
  map_Forall commandSound (withCommand k op registry).
Proof.
  intros Hop Hall k' c'. unfold withCommand.
  destruct (decide (k = k')) as [->|].
  - rewrite lookup_alter_eq. destruct (registry !! k') as [c0|] eqn:Hk; [|done].
    intros [= <-]. apply Hop. exact (Hall k' c0 Hk).
  - rewrite lookup_alter_ne by done. apply Hall.
Qed.

Lemma built_sound registry : built registry → map_Forall commandSound registry.
Proof.
  induction 1 as [|registry name _ IH|registry k name dv _ IH
                  |registry k name dv vv _ IH|registry k name sh b dv _ IH
                  |registry k name sh b dv vv _ IH].
  - apply map_Forall_empty.
  - unfold Register. destruct (registry !! removeWhitespaces name); [done|].
    apply map_Forall_insert_2; [|done].
    split; [done|]. split; [split; [constructor|split; [done|apply map_Forall_empty]]|].
    split; apply map_Forall_empty.
  - apply withCommand_sound; [|done]. intros k' c (Hn & Ha & Hf).
    split; [by rewrite AddArg_Name|]. by apply AddArg_consistent.
  - apply withCommand_sound; [|done]. intros k' c (Hn & Ha & Hf).
    pose proof (AddArg_Name c name dv) as Hname.
    pose proof (AddArg_consistent c name dv Ha Hf) as [Ha' Hf'].
    unfold AddArgWithValid. destruct (AddArg c name dv) as [[c1 a] existed].
    cbn [fst] in *. split; [by rewrite <- Hn, <- Hname|].
    split; [by apply alter_args_consistent|done].
  - apply withCommand_sound; [|done]. intros k' c (Hn & Ha & Hf).
    split; [by rewrite AddFlag_Name|]. by apply AddFlag_consistent.
  - apply withCommand_sound; [|done]. intros k' c (Hn & Ha & Hf).
    pose proof (AddFlag_Name c name sh b dv) as Hname.
    pose proof (AddFlag_consistent c name sh b dv Ha Hf) as [Ha' Hf'].
    unfold AddFlagWithValid. destruct (AddFlag c name sh b dv) as [[c1 f] existed].
    cbn [fst] in *. split; [by rewrite <- Hn, <- Hname|].
    split; [done|by apply alter_flags_consistent].
Qed.

(** X18. On a registry made with the builder, [Parse] never dereferences a nil
    pointer: it returns an error and no result, or a result and no error,
    and a result carries the name of the selected command. *)
Theorem built_registry_never_panics (registry : Registry) (values : list string) :
  built registry →
  (∃ e, Parse registry values = Returns None (Some e))
  ∨ (∃ store, Parse registry values = Returns (Some store) None
              ∧ CommandParsed.Name store = (selectCommand registry values).1).
Proof.
  intros Hb%built_sound. unfold Parse.
  destruct (selectCommand registry values) as [n rest]. cbn [fst].
  destruct (firstUnsupported _); [eauto|].
  destruct (registry !! n) as [c|] eqn:Hreg; [|eauto].
  destruct (Hb n c Hreg) as (Hname & Ha & Hf).
  pose proof (resolve_no_nil c (formatCommandValues rest)
                (CommandParsed.mk (CommandConfig.Name c) ∅ ∅) (consistent_wf c Ha Hf))
    as Hnil.
  destruct (resolve c _ _) as [store|e|] eqn:Hres; [|eauto|done].
  right. eexists. split; [done|]. cbn.
  apply resolve_Name in Hres. by rewrite Hres.
Qed.

Lemma scenarioA_built : built scenarioA.
Proof.
  unfold scenarioA.
  change (Register NewRegistry "info")
    with ((Register NewRegistry "info").1.1, "info", false).
  cbn iota beta. repeat constructor.
Qed.

Lemma built_registry_never_panics_witness :
  (∃ e, Parse scenarioA tokensA = Returns None (Some e))
  ∨ (∃ store, Parse scenarioA tokensA = Returns (Some store) None
              ∧ CommandParsed.Name store = (selectCommand scenarioA tokensA).1).
Proof. apply (built_registry_never_panics scenarioA tokensA), scenarioA_built. Defined.

(** ** Spellings of a registered flag *)

Lemma TrimLeft_same_cutset s cutset cutset' :
  (∀ b, strings.inCutset b cutset = strings.inCutset b cutset') →
  strings.TrimLeft s cutset = strings.TrimLeft s cutset'.
Proof.
  intros Hsame. induction s as [|b s IH]; [done|]. cbn [strings.TrimLeft].
  rewrite <- Hsame. by destruct (strings.inCutset b cutset).
Qed.

Lemma negated_cutset b : strings.inCutset b "--no-" = strings.inCutset b "no-".
Proof. cbn -[Ascii.eqb]. by destruct (Ascii.eqb b "-"), (Ascii.eqb b "n"), (Ascii.eqb b "o"). Qed.

Lemma HasPrefix_split s pre :
  strings.HasPrefix s pre = true → ∃ r, s = pre +:+ r.
Proof.
  revert s. induction pre as [|a pre IH]; intros s; [by exists s|].
  destruct s as [|b s]; [done|]. rewrite HasPrefix_cons.
  intros [Hab Hs]%andb_true_iff. apply Ascii.eqb_eq in Hab as ->.
  destruct (IH s Hs) as [r ->]. by exists r.
Qed.

(** X19. Only the negated spelling reaches an inverted flag: on a consistent
    command, a value that resolves to an inverted flag begins with
    [--no-]. *)
Theorem inverted_flag_needs_negated_spelling (c : CommandConfig.t)
    (value : string) (flag : FlagCommand.t) :
  flagsConsistent c →
  lookupFlag c value = Continue flag →
  FlagCommand.IsInverted flag = true →
  strings.HasPrefix value "--no-" = true.
Proof.
  intros [_ Halias]. unfold lookupFlag, isInvertedFlag.
  destruct (isShortFlag value).
  - destruct (CommandConfig.flagsShort c !! _) as [l|] eqn:Hl; [|done].
    destruct (Halias _ l Hl) as [_ Hinv].
    destruct (CommandConfig.Flags c !! l) as [d|]; [|done].
    intros [= <-] Hd. cbn in Hinv. congruence.
  - destruct (isFlag value && strings.HasPrefix value "--no-") eqn:Hneg.
    + by apply andb_true_iff in Hneg as [_ ?].
    + destruct (CommandConfig.Flags c !! _) as [d|]; [|done].
      destruct (FlagCommand.IsInverted d) eqn:Hd; [done|].
      intros [= <-] Hflag. congruence.
Qed.

Lemma inverted_flag_needs_negated_spelling_witness :
  strings.HasPrefix "--no-clean" "--no-" = true.
Proof.
  apply (inverted_flag_needs_negated_spelling infoCommand "--no-clean"
           (FlagCommand.mk "clean" "" true true "true" "" ∅)).
  - apply (bool_decide_unpack _). vm_compute. exact I.
  - vm_compute. reflexivity.
  - reflexivity.
Defined.

(** X20. An inverted flag is found by the spelling it was registered with:
    after [AddFlag] has registered the boolean name [no-...] as a new flag,
    the value made of two dashes and that name resolves to the new
    definition, whatever follows the prefix (the registration and the
    lookup trim the same bytes). *)
Theorem negated_spelling_finds_inverted_flag (c : CommandConfig.t)
    (name shortName defaultValue : string) :
  strings.HasPrefix name "no-" = true →
  CommandConfig.Flags c !! flagKey name true = None →
  lookupFlag (AddFlag c name shortName true defaultValue).1.1 ("--" +:+ name)
  = Continue (FlagCommand.mk (strings.TrimLeft name "no-") "" true true "true" "" ∅).
Proof.
  intros Hno Hfresh. rewrite (AddFlag_fresh _ _ _ _ _ Hfresh). cbn [fst].
  unfold newFlag, flagKey, withFlag. cbn [andb]. rewrite Hno.
  cbn [FlagCommand.Name FlagCommand.ShortName strings.len String.length Nat.ltb Nat.leb].
  destruct (HasPrefix_split name "no-" Hno) as [rest ->].
  unfold lookupFlag, isInvertedFlag, isShortFlag, isFlag.
  change ("--" +:+ ("no-" +:+ rest)) with ("--no-" +:+ rest).
  change (strings.HasPrefix ("--no-" +:+ rest) "--no-") with true.
  change (strings.HasPrefix ("--no-" +:+ rest) "--") with true.
  change (strings.HasPrefix ("--no-" +:+ rest) "-") with true.
  change (strings.len ("--no-" +:+ rest)) with (S (S (S (S (S (strings.len rest)))))).
  cbn [Nat.leb Nat.eqb andb negb].
  assert (strings.TrimLeft ("--no-" +:+ rest) "--no-"
          = strings.TrimLeft ("no-" +:+ rest) "no-") as ->.
  { change (strings.TrimLeft ("--no-" +:+ rest) "--no-")
      with (strings.TrimLeft ("no-" +:+ rest) "--no-").
    apply TrimLeft_same_cutset, negated_cutset. }
  cbn [CommandConfig.Flags]. by rewrite lookup_insert_eq.
Qed.

Lemma negated_spelling_finds_inverted_flag_witness :
  lookupFlag (AddFlag (CommandConfig.mk "info" ∅ ∅ ∅ []) "no-output" "" true "").1.1
    "--no-output"
  = Continue (FlagCommand.mk "utput" "" true true "true" "" ∅).
Proof.
  apply (negated_spelling_finds_inverted_flag (CommandConfig.mk "info" ∅ ∅ ∅ [])
           "no-output" "" ""); reflexivity.
Defined.

(** X21. A plain flag is found by both spellings it was registered with: after
    [AddFlag] has registered a new flag that is not inverted, under a name
    that is not empty, does not begin with [-] or [no-] and holds no [=],
    two dashes and the name resolve to the new definition, and so does one
    dash and the first byte of the short name, when that byte is neither
    [-] nor [=]. *)
Theorem new_flag_is_found_by_both_spellings (c : CommandConfig.t)
    (name shortName : string) (isBool : bool) (defaultValue : string) :
  let key := removeWhitespaces name in
  let d := newFlag name shortName isBool defaultValue in
  isBool && strings.HasPrefix name "no-" = false →
  CommandConfig.Flags c !! key = None →
  key ≠ "" → strings.HasPrefix key "-" = false →
  strings.HasPrefix key "no-" = false → hasByte key "=" = false →
  lookupFlag (AddFlag c name shortName isBool defaultValue).1.1 ("--" +:+ key)
  = Continue d
  ∧ ∀ y r, removeWhitespaces shortName = String y r →
      y ≠ "-"%char → y ≠ "="%char →
      lookupFlag (AddFlag c name shortName isBool defaultValue).1.1
        (String "-" (String y ""))
      = Continue d.
Proof.
  intros key d Hplain Hfresh Hne Hdash Hno Heq.
  assert (flagKey name isBool = key) as Hkey.
  { unfold flagKey. by rewrite Hplain. }
  assert (FlagCommand.Name d = key) as Hname by exact Hkey.
  assert (FlagCommand.IsInverted d = false) as Hinv by exact Hplain.
  rewrite <- Hkey in Hfresh. rewrite (AddFlag_fresh _ _ _ _ _ Hfresh). cbn [fst].
  fold d.
  assert (CommandConfig.Flags (withFlag c d) !! key = Some d) as Hd.
  { unfold withFlag. cbn [CommandConfig.Flags]. rewrite Hname. apply lookup_insert_eq. }
  split.
  - by apply (lookupFlag_long (withFlag c d) key d).
  - intros y r Hshort Hy1 Hy2.
    apply (lookupFlag_short (withFlag c d) key y d); try done.
    assert (FlagCommand.ShortName d = String y "") as Hsh.
    { unfold d, newFlag. cbn [FlagCommand.ShortName]. rewrite Hplain, Hshort.
      apply substring_first_byte. }
    unfold withFlag. cbn [CommandConfig.flagsShort]. rewrite Hsh, Hname.
    cbn [strings.len String.length Nat.ltb Nat.leb]. apply lookup_insert_eq.
Qed.

Lemma new_flag_is_found_by_both_spellings_witness :
  lookupFlag (AddFlag (CommandConfig.mk "info" ∅ ∅ ∅ []) "out put" "o" false "./").1.1
    "--output"
  = Continue (newFlag "out put" "o" false "./")
  ∧ ∀ y r, removeWhitespaces "o" = String y r →
      y ≠ "-"%char → y ≠ "="%char →
      lookupFlag (AddFlag (CommandConfig.mk "info" ∅ ∅ ∅ []) "out put" "o" false "./").1.1
        (String "-" (String y ""))
      = Continue (newFlag "out put" "o" false "./").
Proof.
  apply (new_flag_is_found_by_both_spellings (CommandConfig.mk "info" ∅ ∅ ∅ [])
           "out put" "o" false "./"); try reflexivity.
  discriminate.
Defined.

(** ** Variadic names *)

Lemma len_append a b : strings.len (a +:+ b) = strings.len a + strings.len b.
Proof.
  unfold strings.len. induction a as [|x a IH]; [done|].
  rewrite append_cons. cbn [String.length Nat.add]. by rewrite IH.
Qed.

Lemma substring_all b : String.substring 0 (strings.len b) b = b.
Proof.
  unfold strings.len. induction b as [|x b IH]; [done|].
  cbn [String.length String.substring]. by rewrite IH.
Qed.

Lemma substring_skip a b :
  String.substring (strings.len a) (strings.len b) (a +:+ b) = b.
Proof.
  induction a as [|x a IH]; [apply substring_all|]. rewrite append_cons. exact IH.
Qed.

Lemma HasSuffix_append a b : strings.HasSuffix (a +:+ b) b = true.
Proof.
  unfold strings.HasSuffix. rewrite len_append.
  replace (strings.len a + strings.len b - strings.len b) with (strings.len a) by lia.
  rewrite substring_skip, String.eqb_refl, andb_true_r.
  apply Nat.leb_le. lia.
Qed.

Lemma TrimRight_append_cutset a dots cutset :
  strings.TrimRight dots cutset = "" →
  strings.TrimRight (a +:+ dots) cutset = strings.TrimRight a cutset.
Proof.
  intros Hdots. induction a as [|x a IH]; [by rewrite append_empty_l, Hdots|].
  rewrite append_cons. cbn [strings.TrimRight]. by rewrite IH.
Qed.

Lemma TrimRight_same_cutset s cutset cutset' :
  (∀ b, strings.inCutset b cutset = strings.inCutset b cutset') →
  strings.TrimRight s cutset = strings.TrimRight s cutset'.
Proof.
  intros Hsame. induction s as [|b s IH]; [done|]. cbn [strings.TrimRight].
  by rewrite IH, Hsame.
Qed.

Lemma hasByte_append a b c : hasByte (a +:+ b) c = hasByte a c || hasByte b c.
Proof.
  unfold hasByte. induction a as [|x a IH]; [done|].
  rewrite append_cons. cbn [strings.inCutset]. by rewrite IH, orb_assoc.
Qed.

(** X22. A name that ends in three dots and is not flag-shaped is the name of a
    variadic argument: [AddArg] files it under the name without its trailing
    dots, all of them, since the suffix is trimmed as a set of bytes. *)
Theorem variadic_suffix_is_trimmed (n : string) :
  hasByte n " " = false → isFlag (n +:+ "...") = false →
  isVariadicArgument (removeWhitespaces (n +:+ "...")) = (true, strings.TrimRight n ".")
  ∧ argKey (n +:+ "...") = strings.TrimRight n ".".
Proof.
  intros Hspace Hflag.
  assert (removeWhitespaces (n +:+ "...") = n +:+ "...") as Hclean.
  { apply ReplaceAll_drop_none. by rewrite hasByte_append, Hspace. }
  assert (isVariadicArgument (n +:+ "...") = (true, strings.TrimRight n ".")) as Hvar.
  { unfold isVariadicArgument. rewrite Hflag, HasSuffix_append. cbn [negb andb].
    f_equal. rewrite TrimRight_append_cutset by done.
    apply TrimRight_same_cutset. intros b. cbn -[Ascii.eqb].
    by destruct (Ascii.eqb b "."). }
  unfold argKey. by rewrite Hclean, Hvar.
Qed.

Lemma variadic_suffix_is_trimmed_witness :
  isVariadicArgument (removeWhitespaces "subjects...") = (true, "subjects")
  ∧ argKey "subjects..." = "subjects".
Proof. apply (variadic_suffix_is_trimmed "subjects"); reflexivity. Defined.
